(** * BentoML marshal layer: micro-batching dispatcher and tensor handler

    A shallow embedding of
    - [bentoml/marshal/marshal.py]: [Parade], [ParadeDispatcher],
      [MarshalService];
    - [bentoml/handlers/tensorflow_tensor_handler.py]:
      [TensorflowTensorHandler.handle_batch_request];
    followed by the properties of the batching design that hold of this code,
    and the places where the code departs from them. *)

From stdpp Require Import base option list strings gmap pretty.
From Stdlib Require Import ZArith Lia.

Open Scope string_scope.
Open Scope list_scope.

(** ** Python runtime fragments *)

Module Py.

(** The exception classes that occur in the two modules. [OtherError]
    stands for any exception raised by a collaborator (network errors of
    the HTTP client, errors of the model function, ...). *)
Inductive exn :=
| AssertionError
| AttributeError
| IndexError
| TypeError
| JSONDecodeError
| UnicodeDecodeError
| OtherError (name : string).

#[global] Instance exn_eq_dec : EqDecision exn.
Proof. solve_decision. Defined.

(** A call either returns a value or raises. *)
Inductive res (A : Type) :=
| Ok (a : A)
| Raise (e : exn).
Arguments Ok {A} a.
Arguments Raise {A} e.

#[global] Instance res_ret : MRet res := fun A a => Ok a.
#[global] Instance res_bind : MBind res := fun A B f m =>
  match m with
  | Ok a => f a
  | Raise e => Raise e
  end.

Definition is_ok {A} (r : res A) : bool :=
  match r with Ok _ => true | Raise _ => false end.

(** [collections.OrderedDict]: keys in insertion order. *)
Section odict.
Context {K V : Type} `{EqDecision K}.

(** [d[k] = v]: an existing key keeps its position, a new one goes last. *)
Fixpoint od_set (k : K) (v : V) (d : list (K * V)) : list (K * V) :=
  match d with
  | [] => [(k, v)]
  | (k', v') :: d' =>
      if decide (k' = k) then (k', v) :: d' else (k', v') :: od_set k v d'
  end.

(** [d.get(k)]: [None] is Python's [None] default. *)
Fixpoint od_get (k : K) (d : list (K * V)) : option V :=
  match d with
  | [] => None
  | (k', v') :: d' => if decide (k' = k) then Some v' else od_get k d'
  end.

Definition od_keys (d : list (K * V)) : list K := d.*1.
Definition od_values (d : list (K * V)) : list V := d.*2.

(** [d.update(pairs)] and [OrderedDict(pairs)]. *)
Definition od_update (d : list (K * V)) (l : list (K * V)) : list (K * V) :=
  foldl (fun acc kv => od_set kv.1 kv.2 acc) d l.
Definition od_of_pairs (l : list (K * V)) : list (K * V) := od_update [] l.

End odict.

End Py.
Import Py.

(** ** marshal.py *)

Module Marshal.

(** [uuid.uuid4().hex] *)
Definition token := string.

(** [Parade.STATUSES = (STATUS_OPEN, STATUS_CLOSED, STATUS_RETURNED) = range(3)] *)
Inductive status := STATUS_OPEN | STATUS_CLOSED | STATUS_RETURNED.

#[global] Instance status_eq_dec : EqDecision status.
Proof. solve_decision. Defined.

Section Parade.
Context {I O : Type}.

(** The fields of a [Parade] object. The [asyncio.Condition] [returned]
    holds no data of its own: the tasks blocked on it are the callers of
    the event loop model below. *)
Record Parade := mkParade {
  batch_input : list (token * I);
  batch_output : option (list (token * O));
  status_of : status
}.

(** [Parade.__init__] *)
Definition Parade_init : Parade :=
  {| batch_input := []; batch_output := None; status_of := STATUS_OPEN |}.

Definition set_batch_input (d : list (token * I)) (p : Parade) : Parade :=
  {| batch_input := d; batch_output := batch_output p; status_of := status_of p |}.
Definition set_batch_output (d : list (token * O)) (p : Parade) : Parade :=
  {| batch_input := batch_input p; batch_output := Some d; status_of := status_of p |}.
Definition set_status (s : status) (p : Parade) : Parade :=
  {| batch_input := batch_input p; batch_output := batch_output p; status_of := s |}.

(** [Parade.feed]: the [assert] raises when the parade is not open. *)
Definition feed (id_ : token) (data : I) (p : Parade) : res (Parade * bool) :=
  if decide (status_of p = STATUS_OPEN)
  then Ok (set_batch_input (od_set id_ data (batch_input p)) p, true)
  else Raise AssertionError.

(** Successive [feed] calls on one parade. *)
Fixpoint feed_all (adm : list (token * I)) (p : Parade) : res Parade :=
  match adm with
  | [] => Ok p
  | (id_, data) :: adm' =>
      r ← feed id_ data p; feed_all adm' r.1
  end.

(** [Parade.start_wait], split at its two suspension points.

    [start_wait_elapsed]: [asyncio.sleep] has returned; the status is set
    and [call] is entered with [self.batch_input.values()]. *)
Definition start_wait_elapsed (p : Parade) : Parade * list I :=
  let p1 := set_status STATUS_CLOSED p in
  (p1, od_values (batch_input p1)).

(** The rest of the [try] body once [call] has returned [outputs]
    (the [notify_all] acts on the waiting tasks, not on the fields). *)
Definition start_wait_try_rest (outputs : list O) (p : Parade) : Parade :=
  let p1 :=
    set_batch_output (od_of_pairs (zip (od_keys (batch_input p)) outputs)) p in
  set_status STATUS_RETURNED p1.

(** The [finally] clause. *)
Definition start_wait_finally (p : Parade) : Parade :=
  set_status STATUS_CLOSED p.

(** From the outcome of the awaited [call] to the end of the coroutine:
    the final fields, and the exception the task ends with, if any. *)
Definition start_wait_resume (r : res (list O)) (p : Parade)
  : Parade * option exn :=
  match r with
  | Ok outputs => (start_wait_finally (start_wait_try_rest outputs p), None)
  | Raise e => (start_wait_finally p, Some e)
  end.

(** [parade.batch_output.get(id_)], the value [_func] returns. *)
Definition batch_output_get (id_ : token) (p : Parade) : res (option O) :=
  match batch_output p with
  | Some d => Ok (od_get id_ d)
  | None => Raise AttributeError
  end.
End Parade.
Arguments Parade : clear implicits.

(** *** ParadeDispatcher on the asyncio event loop

    The loop is single-threaded and cooperative: a task runs without
    interruption from one suspension point to the next. The suspension
    points of this module are [asyncio.sleep] and [await call(...)] in
    [start_wait], and [parade.returned.wait()] in [_func]. The lock of the
    condition is never held across a suspension point, so acquiring it
    never suspends. One transition of the model is one such uninterrupted
    run of one task; the schedule is the list of transitions taken. *)
Section Loop.
Context {I O : Type}.

(** Where a [start_wait] task stands. *)
Inductive wpc :=
| Sleeping                  (* in [asyncio.sleep(interval)] *)
| Calling (args : list I)   (* in [await call(args)] *)
| Finished                  (* returned *)
| Crashed (e : exn).        (* ended with exception [e] *)

(** Where a [_func] task stands. *)
Inductive cpc :=
| Waiting                       (* in [parade.returned.wait()] *)
| Notified                      (* woken by [notify_all], not yet resumed *)
| Returned (r : res (option O)). (* finished with this outcome *)

Record Caller := mkCaller {
  c_parade : nat;   (* the parade the task holds *)
  c_id : token;     (* its [id_] *)
  c_pc : cpc
}.

Record World := mkWorld {
  heap : list (Parade I O);       (* the Parade objects, by address *)
  windows : list wpc;             (* the [start_wait] task of each parade *)
  _current_parade : option nat;   (* [ParadeDispatcher._current_parade] *)
  callers : list Caller           (* the [_func] tasks, by creation *)
}.

(** [ParadeDispatcher.__init__] on a fresh loop. *)
Definition World_init : World :=
  {| heap := []; windows := []; _current_parade := None; callers := [] |}.

(** The test of [get_parade]: the current parade, when there is one and
    it is open. *)
Definition current_open (w : World) : option nat :=
  p ← _current_parade w;
  P ← heap w !! p;
  if decide (status_of P = STATUS_OPEN) then Some p else None.

(** [ParadeDispatcher.get_parade]: the parade returned and the world
    after the call. [create_task] registers the new [start_wait] task,
    which starts in its [sleep]. *)
Definition get_parade (w : World) : nat * World :=
  match current_open w with
  | Some p => (p, w)
  | None =>
      let p := length (heap w) in
      (p, {| heap := heap w ++ [Parade_init];
             windows := windows w ++ [Sleeping];
             _current_parade := Some p;
             callers := callers w |})
  end.

(** [_func] from [parade.feed(id_, inputs)] to the suspension in
    [wait()], for the parade at address [p]. An exception of [feed]
    ends the task. [None]: no object at [p]. *)
Definition _func_admit (p : nat) (id_ : token) (inputs : I) (w : World)
  : option World :=
  P ← heap w !! p;
  match feed id_ inputs P with
  | Ok (P', _) =>
      Some {| heap := <[p := P']> (heap w);
              windows := windows w;
              _current_parade := _current_parade w;
              callers := callers w ++ [mkCaller p id_ Waiting] |}
  | Raise e =>
      Some {| heap := heap w;
              windows := windows w;
              _current_parade := _current_parade w;
              callers := callers w ++ [mkCaller p id_ (Returned (Raise e))] |}
  end.

(** [_func] from its start to its suspension. *)
Definition _func_enter (id_ : token) (inputs : I) (w : World) : option World :=
  let '(p, w1) := get_parade w in _func_admit p id_ inputs w1.

(** [self.returned.notify_all()] of parade [p]. *)
Definition notify_all (p : nat) (cs : list Caller) : list Caller :=
  (fun c =>
     match c_pc c with
     | Waiting =>
         if decide (c_parade c = p)
         then mkCaller (c_parade c) (c_id c) Notified else c
     | _ => c
     end) <$> cs.

(** [_func] after its wake-up: [return parade.batch_output.get(id_)]. *)
Definition _func_resume (c : nat) (w : World) : option World :=
  cl ← callers w !! c;
  match c_pc cl with
  | Notified =>
      P ← heap w !! c_parade cl;
      Some {| heap := heap w;
              windows := windows w;
              _current_parade := _current_parade w;
              callers :=
                <[c := mkCaller (c_parade cl) (c_id cl)
                         (Returned (batch_output_get (c_id cl) P))]> (callers w) |}
  | _ => None
  end.

(** [start_wait] of parade [p], from the end of [sleep] to [await call]. *)
Definition window_elapsed (p : nat) (w : World) : option World :=
  pc ← windows w !! p;
  P ← heap w !! p;
  match pc with
  | Sleeping =>
      let '(P', args) := start_wait_elapsed P in
      Some {| heap := <[p := P']> (heap w);
              windows := <[p := Calling args]> (windows w);
              _current_parade := _current_parade w;
              callers := callers w |}
  | _ => None
  end.

(** [start_wait] of parade [p], from the outcome [r] of [call] to its end. *)
Definition window_resume (p : nat) (r : res (list O)) (w : World)
  : option World :=
  pc ← windows w !! p;
  P ← heap w !! p;
  match pc with
  | Calling _ =>
      let '(P', e) := start_wait_resume r P in
      Some {| heap := <[p := P']> (heap w);
              windows :=
                <[p := match e with None => Finished | Some e => Crashed e end]>
                  (windows w);
              _current_parade := _current_parade w;
              callers :=
                match r with
                | Ok _ => notify_all p (callers w)
                | Raise _ => callers w
                end |}
  | _ => None
  end.

(** What the loop can do next. *)
Inductive event :=
| Submit (id_ : token) (inputs : I)       (* a new [_func(inputs)] task runs *)
| WindowElapsed (p : nat)                 (* the sleep of [p]'s task ends *)
| CallReturns (p : nat) (outputs : list O) (* [call] of [p]'s task returns *)
| CallRaises (p : nat) (e : exn)          (* [call] of [p]'s task raises *)
| Resume (c : nat).                       (* notified caller [c] runs *)

(** One transition; [None] when the event is not enabled. *)
Definition exec (ev : event) (w : World) : option World :=
  match ev with
  | Submit id_ inputs => _func_enter id_ inputs w
  | WindowElapsed p => window_elapsed p w
  | CallReturns p outputs => window_resume p (Ok outputs) w
  | CallRaises p e => window_resume p (Raise e) w
  | Resume c => _func_resume c w
  end.

(** A schedule. *)
Fixpoint run (evs : list event) (w : World) : option World :=
  match evs with
  | [] => Some w
  | ev :: evs' => w' ← exec ev w; run evs' w'
  end.

Definition reachable (w : World) : Prop :=
  ∃ evs, run evs World_init = Some w.

End Loop.
Arguments World : clear implicits.
Arguments Caller : clear implicits.
Arguments cpc : clear implicits.
Arguments wpc : clear implicits.
Arguments event : clear implicits.

(** *** MarshalService *)

(** The parts of an [aiohttp.web.Request] the service reads. [headers] is
    the header object of the request, a [multidict.CIMultiDictProxy]: a
    read-only view, given here by its entries. *)
Record Request := mkRequest {
  match_info_name : string;               (* [request.match_info['name']] *)
  req_headers : list (string * string);   (* [request.headers] *)
  req_data : string                       (* [await request.read()] *)
}.

(** What the HTTP client yields for the backend's reply. *)
Record ClientResponse := mkClientResponse {
  cr_status : Z;
  cr_headers : list (string * string);
  cr_body : string                        (* [await resp.read()] *)
}.

(** [aiohttp.web.Response(status=, body=, headers=)] *)
Record Response := mkResponse {
  resp_status : Z;
  resp_body : string;
  resp_headers : list (string * string)
}.

(** What a batch callback yields per request: a response object, or the
    class [aiohttp.web.HTTPInternalServerError] itself. *)
Inductive Output :=
| Resp (r : Response)
| HTTPInternalServerError.

(** The [ParadeDispatcher] built by [add_batch_handler]: its [interval],
    and the [api_name] its decorated closure captured. *)
Record ParadeDispatcher := mkParadeDispatcher {
  interval : Z;
  callback_api_name : string
}.

(** A [MarshalService] object. A batch handler is the [_func] returned by
    [ParadeDispatcher.__call__]; it is held as the address of its
    dispatcher among the dispatchers constructed so far. *)
Record MarshalService := mkMarshalService {
  target_host : string;
  target_port : option Z;
  batch_handlers : gmap string nat;
  dispatchers : list ParadeDispatcher
}.

(** [MarshalService.__init__] *)
Definition MarshalService_init (host : string) (port : option Z) : MarshalService :=
  {| target_host := host; target_port := port;
     batch_handlers := ∅; dispatchers := [] |}.

(** [str(x)] of a port inside an f-string. *)
Definition py_str_port (port : option Z) : string :=
  match port with
  | None => "None"
  | Some z => pretty z
  end.

(** [f"http://{self.target_host}:{self.target_port}/{api_name}"] *)
Definition api_url (s : MarshalService) (api_name : string) : string :=
  "http://" +:+ target_host s +:+ ":" +:+ py_str_port (target_port s)
    +:+ "/" +:+ api_name.

(** [MarshalService.add_batch_handler] *)
Definition add_batch_handler (api_name : string) (max_latency : Z)
    (s : MarshalService) : MarshalService :=
  match batch_handlers s !! api_name with
  | Some _ => s
  | None =>
      {| target_host := target_host s;
         target_port := target_port s;
         batch_handlers :=
           <[api_name := length (dispatchers s)]> (batch_handlers s);
         dispatchers :=
           dispatchers s ++
             [{| interval := max_latency; callback_api_name := api_name |}] |}
  end.

Section Service.
(** Collaborators outside this module. *)
Variable _MARSHAL_FLAG : string.
(** [make_http_headers(trace_ctx)] for the span opened under a name. *)
Variable make_http_headers : string → list (string * string).
(** [client.post(url, data=, headers=)] and [resp.read()]. *)
Variable client_post :
  string → string → list (string * string) → res ClientResponse.
(** [merge_aio_requests], the post of the merged body and
    [split_aio_responses] (which may yield [None]). *)
Variable merged_post :
  string → list (string * string) → list Request → res (option (list Output)).
(** Awaiting the [_func] of the dispatcher at an address. *)
Variable submit : nat → Request → res (option Output).

(** The closure decorated in [add_batch_handler], for [api_name]. *)
Definition batch_callback (s : MarshalService) (api_name : string)
    (requests : list Request) : res (list Output) :=
  let headers :=
    od_update [(_MARSHAL_FLAG, "true")]
      (make_http_headers ("merged " +:+ api_name)) in
  resps ← merged_post (api_url s api_name) headers requests;
  match resps with
  | None => Ok (replicate (length requests) HTTPInternalServerError)
  | Some resps => Ok resps
  end.

(** The public names of a [multidict.CIMultiDictProxy], the type of
    [request.headers]: the reading methods of a multidict and none of the
    mutating ones. *)
Definition CIMultiDictProxy_names : list string :=
  ["copy"; "get"; "getall"; "getone"; "items"; "keys"; "values"].

(** Attribute access [request.headers.<name>]. *)
Definition headers_getattr (name : string) : res unit :=
  if decide (name ∈ CIMultiDictProxy_names) then Ok () else Raise AttributeError.

(** [MarshalService._relay_handler]: the request after the call and the
    outcome. [headers] is an alias of [request.headers]; in
    [headers.update(make_http_headers(trace_ctx))] the attribute [update]
    is looked up before the argument is evaluated, and an exception leaves
    the [with async_trace(...)] block as it is. *)
Definition _relay_handler (s : MarshalService) (request : Request)
    (api_name : string) : Request * res Response :=
  let data := req_data request in
  match headers_getattr "update" with
  | Raise e => (request, Raise e)
  | Ok _ =>
      let request' :=
        {| match_info_name := match_info_name request;
           req_headers :=
             od_update (req_headers request)
               (make_http_headers (api_name +:+ " relay"));
           req_data := req_data request |} in
      (request',
       resp ← client_post (api_url s api_name) data (req_headers request');
       Ok {| resp_status := cr_status resp;
             resp_body := cr_body resp;
             resp_headers := cr_headers resp |})
  end.

(** [MarshalService.request_dispatcher] *)
Definition request_dispatcher (s : MarshalService) (request : Request)
    : Request * res (option Output) :=
  let api_name := match_info_name request in
  match batch_handlers s !! api_name with
  | Some d => (request, submit d request)
  | None =>
      let '(request', r) := _relay_handler s request api_name in
      (request', resp ← r; Ok (Some (Resp resp)))
  end.
End Service.

End Marshal.

(** ** tensorflow_tensor_handler.py *)

Module TensorflowTensorHandler.

(** The values [json.loads] produces. *)
#[local] Unset Elimination Schemes.
Inductive json :=
| JNull
| JBool (b : bool)
| JNum (z : Z)
| JStr (s : string)
| JArr (l : list json)
| JObj (l : list (string * json)).
#[local] Set Elimination Schemes.

(** Truth value of a Python object, as [elif x:] tests it. *)
Definition truthy (j : json) : bool :=
  match j with
  | JNull => false
  | JBool b => b
  | JNum z => negb (z =? 0)%Z
  | JStr s => negb (bool_decide (s = ""))
  | JArr l => negb (bool_decide (length l = 0))
  | JObj l => negb (bool_decide (length l = 0))
  end.

(** [parsed_json.get(key)]: only a dict has [get]; an absent key yields
    Python's [None], which is also what a JSON null is. *)
Definition json_get (key : string) (j : json) : res json :=
  match j with
  | JObj l => Ok (default JNull (od_get key l))
  | _ => Raise AttributeError
  end.

Definition is_None (j : json) : bool :=
  match j with JNull => true | _ => false end.

(** The names bound in the standard library module [json] (dunder and
    underscore names apart). *)
Definition json_module_names : list string :=
  ["JSONDecodeError"; "JSONDecoder"; "JSONEncoder"; "codecs"; "decoder";
   "detect_encoding"; "dump"; "dumps"; "encoder"; "load"; "loads"; "scanner"].

(** Attribute access [json.<name>]. *)
Definition json_getattr (name : string) : res unit :=
  if decide (name ∈ json_module_names) then Ok () else Raise AttributeError.

(** [flask.Response(response=, status=, mimetype=)] *)
Record Response := mkResponse {
  response : string;
  status : Z;
  mimetype : option string
}.

Definition bad_resp : Response :=
  {| response := "Bad Input"; status := 400; mimetype := None |}.

(** What one round of the first loop does to the two lists. *)
Inductive item :=
| SetInstances (instances : list json)   (* [instances_list[i] = instances] *)
| SetResponse (r : Response)             (* [responses[i] = ...] *)
| Skip.

Section handle_batch_request.
(** Collaborators outside this module. *)
Variable tensor : Type.
Variable pyslice : Type.
(** [bytes.decode("utf-8")]; [None]: [UnicodeDecodeError]. *)
Variable bytes_decode : list Byte.byte → option string.
(** [json.loads]; [None]: [JSONDecodeError]. *)
Variable json_loads : string → option json.
Variable decode_b64_if_needed : json → res json.
Variable concat_list :
  list (option (list json)) → res (list json * list pyslice).
Variable tf_constant : list json → res tensor.
Variable func : tensor → res tensor.
Variable decode_tf_if_needed : tensor → res json.
(** [merged_result[s]] *)
Variable getitem : list json → pyslice → res json.
Variable api_func_result_to_json : json → res string.

(** The body of the [try] for one request. *)
Definition try_body (data : list Byte.byte) : res item :=
  raw_str ← match bytes_decode data with
            | Some s => Ok s
            | None => Raise UnicodeDecodeError
            end;
  parsed_json ← match json_loads raw_str with
                | Some j => Ok j
                | None => Raise JSONDecodeError
                end;
  instances ← json_get "instances" parsed_json;
  if negb (is_None instances) then
    instances ← json_get "instances" parsed_json;
    if is_None instances then Ok Skip else
    instances ← decode_b64_if_needed instances;
    Ok (SetInstances
          match instances with
          | JArr l => l
          | other => [other]
          end)
  else
    inputs ← json_get "inputs" parsed_json;
    if truthy inputs then
      Ok (SetResponse
            {| response := "Column format 'inputs' is not implemented";
               status := 501; mimetype := None |})
    else Ok Skip.

(** The [except] clause, entered with the exception [e] of the body: its
    expression [(json.exceptions.JSONDecodeError, UnicodeDecodeError)]
    is evaluated first, then [e] is matched against it. [Ok ()]: the
    handler ran ([traceback.print_exc()]) and the loop goes on. *)
Definition except_clause (e : exn) : res unit :=
  _ ← json_getattr "exceptions";
  if decide (e ∈ [JSONDecodeError; UnicodeDecodeError])
  then Ok ()
  else Raise e.

(** The first loop, from index [i] on. *)
Fixpoint decode_loop (i : nat) (requests : list (list Byte.byte))
    (st : list (option (list json)) * list Response)
    : res (list (option (list json)) * list Response) :=
  match requests with
  | [] => Ok st
  | data :: requests' =>
      st' ← match try_body data with
            | Ok (SetInstances l) => Ok (<[i := Some l]> st.1, st.2)
            | Ok (SetResponse r) => Ok (st.1, <[i := r]> st.2)
            | Ok Skip => Ok st
            | Raise e => _ ← except_clause e; Ok st
            end;
      decode_loop (S i) requests' st'
  end.

(** The last loop, from index [i] on: [responses[i] = ...] raises
    [IndexError] out of range. *)
Fixpoint respond_loop (i : nat) (results : list json)
    (responses : list Response) : res (list Response) :=
  match results with
  | [] => Ok responses
  | result :: results' =>
      result_str ← api_func_result_to_json result;
      if decide (i < length responses) then
        respond_loop (S i) results'
          (<[i := {| response := result_str; status := 200;
                     mimetype := Some "application/json" |}]> responses)
      else Raise IndexError
  end.

(** [TensorflowTensorHandler.handle_batch_request]; a request is given
    by its [data]. *)
Definition handle_batch_request (requests : list (list Byte.byte))
    : res (list Response) :=
  let instances_list := replicate (length requests) None in
  let responses := replicate (length requests) bad_resp in
  st ← decode_loop 0 requests (instances_list, responses);
  cl ← concat_list st.1;
  parsed_tensor ← tf_constant cl.1;
  merged_result ← func parsed_tensor;
  merged_result ← decode_tf_if_needed merged_result;
  merged_list ← match merged_result with
                | JArr l => Ok l
                | _ => Raise AssertionError
                end;
  results ← mapM (getitem merged_list) cl.2;
  respond_loop 0 results st.2.
End handle_batch_request.

End TensorflowTensorHandler.

(** * Properties *)

Import Marshal.

(** ** OrderedDict *)

Section odict_facts.
Context {K V : Type} `{EqDecision K}.
Implicit Types (d l : list (K * V)) (k : K) (v : V).

Lemma od_set_fresh k v d : k ∉ od_keys d → od_set k v d = d ++ [(k, v)].
Proof.
  unfold od_keys. induction d as [|[k' v'] d IH]; simpl; [done|].
  intros Hk. apply not_elem_of_cons in Hk as [Hne Hk].
  destruct (decide (k' = k)); [congruence|]. by rewrite IH.
Qed.

Lemma od_keys_set k v d :
  od_keys (od_set k v d)
  = if decide (k ∈ od_keys d) then od_keys d else od_keys d ++ [k].
Proof.
  unfold od_keys. induction d as [|[k' v'] d IH].
  - case_decide as Hin; [|reflexivity]. by apply elem_of_nil in Hin.
  - cbn [od_set]. destruct (decide (k' = k)) as [->|Hne].
    + rewrite !fmap_cons. cbn [fst].
      destruct (decide (k ∈ k :: d.*1)) as [_|Hin]; [done|].
      exfalso. apply Hin. apply elem_of_cons. by left.
    + rewrite !fmap_cons, IH. cbn [fst].
      destruct (decide (k ∈ d.*1)) as [Hin|Hin];
        destruct (decide (k ∈ k' :: d.*1)) as [Hin'|Hin']; try done.
      * exfalso. apply Hin'. apply elem_of_cons. by right.
      * apply elem_of_cons in Hin' as [?|?]; congruence.
Qed.

Lemma od_set_NoDup k v d : NoDup (od_keys d) → NoDup (od_keys (od_set k v d)).
Proof.
  intros Hd. rewrite od_keys_set. case_decide; [done|].
  apply NoDup_app. split_and!; [done| |apply NoDup_singleton].
  intros x Hx ->%list_elem_of_singleton. done.
Qed.

Lemma od_update_fresh d l :
  NoDup (od_keys (d ++ l)) → od_update d l = d ++ l.
Proof.
  unfold od_update. revert d. induction l as [|[k v] l IH]; intros d Hnd; simpl.
  - by rewrite app_nil_r.
  - replace (d ++ (k, v) :: l) with ((d ++ [(k, v)]) ++ l) in *
      by (by rewrite <- app_assoc).
    rewrite od_set_fresh.
    + by apply IH.
    + unfold od_keys in *. rewrite !fmap_app in Hnd. simpl in Hnd.
      apply NoDup_app in Hnd as [Hnd _]. apply NoDup_app in Hnd as (_ & Hnd & _).
      intros Hin. apply (Hnd _ Hin). apply list_elem_of_singleton. done.
Qed.

Lemma od_of_pairs_NoDup l : NoDup (od_keys l) → od_of_pairs l = l.
Proof. intros. unfold od_of_pairs. by rewrite od_update_fresh. Qed.

Lemma od_get_None k d : k ∉ od_keys d → od_get k d = None.
Proof.
  unfold od_keys. induction d as [|[k' v'] d IH]; simpl; [done|].
  intros [Hne Hk]%not_elem_of_cons.
  destruct (decide (k' = k)); [congruence|]. by apply IH.
Qed.

Lemma od_get_lookup i k v d :
  NoDup (od_keys d) → d !! i = Some (k, v) → od_get k d = Some v.
Proof.
  unfold od_keys. revert i. induction d as [|[k' v'] d IH]; intros i Hnd Hi; [done|].
  simpl in *. apply NoDup_cons in Hnd as [Hk' Hnd].
  destruct i as [|i]; simpl in Hi.
  - injection Hi as -> ->. by rewrite decide_True.
  - destruct (decide (k' = k)) as [->|_]; [|by eapply IH].
    exfalso. apply Hk'. apply list_elem_of_lookup. exists i.
    by rewrite list_lookup_fmap, Hi.
Qed.

Lemma elem_of_zip_keys (ks : list K) (vs : list V) x :
  x ∈ (zip ks vs).*1 → x ∈ ks.
Proof.
  revert vs. induction ks as [|k0 ks IH]; intros [|v0 vs]; simpl; try done.
  - intros Hx. by apply elem_of_nil in Hx.
  - intros [->|Hx]%elem_of_cons; apply elem_of_cons; [by left|right; eauto].
Qed.

Lemma NoDup_zip_keys (ks : list K) (vs : list V) :
  NoDup ks → NoDup (od_keys (zip ks vs)).
Proof.
  unfold od_keys. revert vs. induction ks as [|k0 ks IH]; intros [|v0 vs] Hnd;
    simpl; try apply NoDup_nil_2.
  apply NoDup_cons in Hnd as [Hk0 Hnd]. apply NoDup_cons. split; [|by apply IH].
  intros Hin. apply Hk0. by eapply elem_of_zip_keys.
Qed.

(** Reading a positional zip back by key. *)
Lemma od_get_zip (ks : list K) (vs : list V) i k :
  NoDup ks → ks !! i = Some k → od_get k (zip ks vs) = vs !! i.
Proof.
  revert vs i. induction ks as [|k0 ks IH]; intros vs i Hnd Hk; [done|].
  apply NoDup_cons in Hnd as [Hk0 Hnd].
  destruct vs as [|v0 vs]; [by destruct i|].
  destruct i as [|i]; simpl in *.
  - injection Hk as ->. by rewrite decide_True.
  - rewrite decide_False; [by apply IH|].
    intros ->. apply Hk0. apply list_elem_of_lookup. eauto.
Qed.

End odict_facts.

(** ** Parade *)

Section Parade_facts.
Context {I O : Type}.
Implicit Types (p : Parade I O) (adm : list (token * I)) (outputs : list O).

Lemma feed_open id_ data p :
  status_of p = STATUS_OPEN →
  feed id_ data p = Ok (set_batch_input (od_set id_ data (batch_input p)) p, true).
Proof. intros Hs. unfold feed. by rewrite decide_True. Qed.


Lemma feed_all_fresh adm p :
  status_of p = STATUS_OPEN →
  NoDup (od_keys (batch_input p ++ adm)) →
  feed_all adm p = Ok (set_batch_input (batch_input p ++ adm) p).
Proof.
  revert p. induction adm as [|[id_ data] adm IH]; intros p Hs Hnd.
  - rewrite app_nil_r. by destruct p.
  - cbn [feed_all]. rewrite feed_open by done. cbn [mbind res_bind fst].
    replace (batch_input p ++ (id_, data) :: adm)
      with ((batch_input p ++ [(id_, data)]) ++ adm) in *
      by (by rewrite <- app_assoc).
    assert (id_ ∉ od_keys (batch_input p)) as Hfresh.
    { unfold od_keys in *. rewrite !fmap_app in Hnd.
      apply NoDup_app in Hnd as [Hnd _]. apply NoDup_app in Hnd as (_ & Hnd & _).
      intros Hin. apply (Hnd _ Hin). by apply list_elem_of_singleton. }
    rewrite IH; cbn [set_batch_input batch_input status_of];
      rewrite ?od_set_fresh by done; done.
Qed.

(** What [start_wait] leaves when [call] returned [outputs]. *)
Lemma start_wait_resume_ok outputs p :
  start_wait_resume (Ok outputs) p
  = ({| batch_input := batch_input p;
        batch_output :=
          Some (od_of_pairs (zip (od_keys (batch_input p)) outputs));
        status_of := STATUS_CLOSED |}, None).
Proof. done. Qed.

(** What [start_wait] leaves when [call] raised. *)
Lemma start_wait_resume_raise e p :
  start_wait_resume (Raise e) p = (set_status STATUS_CLOSED p, Some e).
Proof. done. Qed.

(** The caller's value after a returned call: the output at the position of
    its token, [None] when the outputs stop before it. *)
Lemma batch_output_get_positional outputs p i id_ :
  NoDup (od_keys (batch_input p)) →
  od_keys (batch_input p) !! i = Some id_ →
  batch_output_get id_ (start_wait_resume (Ok outputs) p).1 = Ok (outputs !! i).
Proof.
  intros Hnd Hi. rewrite start_wait_resume_ok. unfold batch_output_get.
  cbn [fst batch_output]. rewrite od_of_pairs_NoDup by by apply NoDup_zip_keys.
  f_equal. by apply od_get_zip.
Qed.
End Parade_facts.

Section feed_facts.
Context {I O : Type}.

Lemma od_get_set_eq {V : Type} (k : string) (v : V) (d : list (string * V)) :
  od_get k (od_set k v d) = Some v.
Proof.
  induction d as [|[k' v'] d IH]; simpl.
  - by rewrite decide_True.
  - destruct (decide (k' = k)) as [->|Hne]; simpl.
    + by rewrite decide_True.
    + by rewrite decide_False.
Qed.
End feed_facts.

(** C3 (as the code has it). [Parade.feed] succeeds exactly when the
    parade is in [STATUS_OPEN]: it then returns [True] and leaves the payload
    stored under the token, at the token's old position or else last, with
    status and outputs untouched. In any other state it raises
    [AssertionError]; there is no failure return value. *)
Theorem feed_succeeds_iff_open {I O : Type}
    (id_ : token) (data : I) (p : Parade I O) :
  (is_ok (feed id_ data p) = true ↔ status_of p = STATUS_OPEN) ∧
  match feed id_ data p with
  | Ok (q, b) =>
      b = true ∧
      od_get id_ (batch_input q) = Some data ∧
      od_keys (batch_input q)
      = (if decide (id_ ∈ od_keys (batch_input p))
         then od_keys (batch_input p)
         else od_keys (batch_input p) ++ [id_]) ∧
      status_of q = STATUS_OPEN ∧
      batch_output q = batch_output p
  | Raise e => e = AssertionError
  end.
Proof.
  unfold feed. destruct (decide (status_of p = STATUS_OPEN)) as [Hs|Hs].
  - split; [done|]. cbn [set_batch_input batch_input status_of batch_output].
    split_and!; try done.
    + apply od_get_set_eq.
    + apply od_keys_set.
  - split; [|done]. split; [discriminate|done].
Qed.

(** C3, refuted as stated: on a closed parade [feed] does not return a
    failure value, it raises. *)
Lemma feed_closed_raises :
  let closed : Parade nat nat := set_status STATUS_CLOSED Parade_init in
  status_of closed ≠ STATUS_OPEN ∧
  feed "t1" 7 closed = Raise AssertionError ∧
  ¬ ∃ v, feed "t1" 7 closed = Ok v.
Proof.
  split_and!; [discriminate|reflexivity|].
  intros [v Hv]. vm_compute in Hv. discriminate.
Qed.

(** Admissions with pairwise distinct tokens into a fresh parade: every
    admission succeeds; when the window ends, [call] receives the payloads
    in admission order; and once [call] has returned [outputs], the token
    admitted at position [i] reads [outputs[i]] (Python's [None] if the
    outputs stop before [i]). *)
Lemma parade_order_preservation {I O : Type}
    (adm : list (token * I)) (outputs : list O) :
  NoDup adm.*1 →
  ∃ p : Parade I O,
    feed_all adm Parade_init = Ok p ∧
    batch_input p = adm ∧
    (start_wait_elapsed p).2 = adm.*2 ∧
    ∀ i id_, adm.*1 !! i = Some id_ →
      batch_output_get id_
        (start_wait_resume (Ok outputs) (start_wait_elapsed p).1).1
      = Ok (outputs !! i).
Proof.
  intros Hnd. eexists. split; [by apply feed_all_fresh|].
  cbn [set_batch_input batch_input app]. split_and!; [done|done|].
  intros i id_ Hi. by apply batch_output_get_positional.
Qed.

(** C6, evaluated on the code. After [call] has returned, the [try] body
    sets [STATUS_RETURNED], and the [finally] clause then overwrites it:
    [start_wait] ends with the parade in [STATUS_CLOSED], as it does when
    [call] raises. *)
Theorem status_after_returned_call {I O : Type}
    (p : Parade I O) (outputs : list O) (e : exn) :
  status_of (start_wait_try_rest outputs p) = STATUS_RETURNED ∧
  status_of (start_wait_resume (Ok outputs) p).1 = STATUS_CLOSED ∧
  status_of (start_wait_resume (Raise e) p).1 = STATUS_CLOSED.
Proof. done. Qed.

(** One admission, the end of the window, and a [call] that returns one
    output: the parade ends in [STATUS_CLOSED] with its outputs set. *)
Example returned_call_ends_closed :
  let p : Parade nat nat :=
    (start_wait_elapsed
       {| batch_input := [("a", 1)]; batch_output := None;
          status_of := STATUS_OPEN |}).1 in
  start_wait_resume (Ok [10]) p
  = ({| batch_input := [("a", 1)]; batch_output := Some [("a", 10)];
        status_of := STATUS_CLOSED |}, None).
Proof. reflexivity. Qed.

(** ** The dispatcher on the event loop *)

Section Loop_facts.
Context {I O : Type}.
Implicit Types (w : World I O) (P : Parade I O) (p c : nat).

(** Every caller holding parade [p] is still blocked in [wait()]. *)
Definition blocked_on (p : nat) (w : World I O) : Prop :=
  Forall (fun cl => c_parade cl = p → c_pc cl = Waiting) (callers w).

(** What the stage of a [start_wait] task says about its parade. *)
Definition window_ok (P : Parade I O) (pc : wpc I) (p : nat) (w : World I O)
  : Prop :=
  match pc with
  | Sleeping =>
      status_of P = STATUS_OPEN ∧ batch_output P = None ∧ blocked_on p w
  | Calling args =>
      status_of P = STATUS_CLOSED ∧ batch_output P = None ∧
      args = od_values (batch_input P) ∧ blocked_on p w
  | Finished => status_of P = STATUS_CLOSED ∧ is_Some (batch_output P)
  | Crashed _ =>
      status_of P = STATUS_CLOSED ∧ batch_output P = None ∧ blocked_on p w
  end.

Record Inv (w : World I O) : Prop := mkInv {
  inv_len : length (windows w) = length (heap w);
  inv_callers : Forall (fun cl => c_parade cl < length (heap w)) (callers w);
  inv_open : ∀ i P,
    heap w !! i = Some P → status_of P = STATUS_OPEN →
    _current_parade w = Some i;
  inv_window : ∀ p P pc,
    heap w !! p = Some P → windows w !! p = Some pc → window_ok P pc p w
}.

Lemma current_open_Some w p :
  current_open w = Some p ↔
  _current_parade w = Some p ∧
  ∃ P, heap w !! p = Some P ∧ status_of P = STATUS_OPEN.
Proof.
  unfold current_open. destruct (_current_parade w) as [q|]; simpl.
  - destruct (heap w !! q) as [P|] eqn:HP; simpl.
    + destruct (decide (status_of P = STATUS_OPEN)) as [Hs|Hs]; split.
      * intros [= ->]. eauto.
      * by intros [[= ->] _].
      * done.
      * intros [[= ->] (P' & HP' & Hs')]. congruence.
    + split; [done|]. intros [[= ->] (P' & HP' & _)]. congruence.
  - split; [done|]. by intros [? _].
Qed.

(** [get_parade] returns the current parade untouched when it is open, and
    otherwise installs one fresh open parade with its sleeping task. *)
Lemma get_parade_cases w :
  (∃ p, current_open w = Some p ∧ get_parade w = (p, w)) ∨
  (current_open w = None ∧
   get_parade w =
     (length (heap w),
      {| heap := heap w ++ [Parade_init];
         windows := windows w ++ [Sleeping];
         _current_parade := Some (length (heap w));
         callers := callers w |})).
Proof.
  unfold get_parade. destruct (current_open w) as [p|]; [left|right]; eauto.
Qed.

Lemma get_parade_open w :
  ∃ P, heap (get_parade w).2 !! (get_parade w).1 = Some P ∧
       status_of P = STATUS_OPEN ∧
       _current_parade (get_parade w).2 = Some (get_parade w).1.
Proof.
  destruct (get_parade_cases w) as [(p & Hp & ->)|[_ ->]]; simpl.
  - apply current_open_Some in Hp as (? & P & ? & ?). eauto.
  - exists Parade_init. split_and!; [|done|done].
    rewrite lookup_app_r by done. by rewrite Nat.sub_diag.
Qed.

Lemma Inv_init : Inv (@World_init I O).
Proof. split; simpl; try done. all: intros ???; by rewrite lookup_nil. Qed.
Lemma window_ok_mono P pc p w w' :
  (blocked_on p w → blocked_on p w') → window_ok P pc p w → window_ok P pc p w'.
Proof.
  intros Hb. destruct pc; simpl; try done; intros; destruct_and?; split_and?; eauto.
Qed.

(** A caller task running up to its [wait()] keeps the invariant. *)
Lemma Inv_func_enter w id_ (x : I) w' :
  Inv w → _func_enter id_ x w = Some w' → Inv w'.
Proof.
  intros HI. unfold _func_enter.
  destruct (get_parade_cases w) as [(p & Hp & ->)|[Hnone ->]].
  - apply current_open_Some in Hp as (Hcur & P & HP & Hs).
    unfold _func_admit. rewrite HP. cbn [mbind option_bind].
    rewrite feed_open by done. intros [= <-].
    split; cbn [heap windows _current_parade callers].
    + rewrite length_insert. apply HI.
    + apply Forall_app. split.
      * eapply Forall_impl; [apply HI|]. intros cl. by rewrite length_insert.
      * apply Forall_singleton. cbn. rewrite length_insert.
        by eapply lookup_lt_Some.
    + intros i Q HQ HsQ.
      apply list_lookup_insert_Some in HQ as [(-> & <- & _)|(Hne & HQ)]; [done|].
      by eapply (inv_open w HI).
    + intros q Q pc HQ Hpc.
      apply list_lookup_insert_Some in HQ as [(-> & <- & _)|(Hne & HQ)].
      * pose proof (inv_window w HI _ _ _ HP Hpc) as Hok.
        destruct pc; cbn in Hok |- *; destruct_and?; try congruence.
        split_and!; try done. unfold blocked_on. cbn [callers].
        apply Forall_app. split; [done|]. by apply Forall_singleton.
      * pose proof (inv_window w HI _ _ _ HQ Hpc) as Hok.
        eapply window_ok_mono; [|exact Hok]. unfold blocked_on. cbn [callers].
        intros Hb. apply Forall_app. split; [done|].
        apply Forall_singleton. cbn. congruence.
  - unfold _func_admit. cbn [heap windows _current_parade callers].
    rewrite lookup_app_r by done. rewrite Nat.sub_diag. cbn [lookup list_lookup mbind option_bind].
    rewrite feed_open by done. intros [= <-].
    assert (∀ i Q, heap w !! i = Some Q → status_of Q ≠ STATUS_OPEN) as Hclosed.
    { intros i Q HQ HsQ. pose proof (inv_open w HI _ _ HQ HsQ) as Hcur.
      assert (current_open w = Some i) as Hc by (apply current_open_Some; eauto).
      congruence. }
    split; cbn [heap windows _current_parade callers].
    + rewrite length_insert, !length_app. cbn. f_equal. apply HI.
    + rewrite length_insert, length_app. cbn. apply Forall_app. split.
      * eapply Forall_impl; [apply HI|]. intros cl. cbn. lia.
      * apply Forall_singleton. cbn. lia.
    + intros i Q HQ HsQ.
      apply list_lookup_insert_Some in HQ as [(<- & <- & _)|(Hne & HQ)]; [done|].
      apply lookup_app_Some in HQ as [HQ|[Hge HQ]].
      * by destruct (Hclosed _ _ HQ).
      * destruct (i - length (heap w)) as [|k] eqn:Hk; [|done].
        exfalso. apply Hne. lia.
    + intros q Q pc HQ Hpc.
      apply list_lookup_insert_Some in HQ as [(<- & <- & _)|(Hne & HQ)].
      * rewrite lookup_app_r in Hpc by (rewrite (inv_len w HI); lia).
        rewrite (inv_len w HI), Nat.sub_diag in Hpc. injection Hpc as <-.
        cbn. split_and!; try done. unfold blocked_on. cbn [callers].
        apply Forall_app. split; [|by apply Forall_singleton].
        eapply Forall_impl; [apply (inv_callers w HI)|]. intros cl. cbn. lia.
      * apply lookup_app_Some in HQ as [HQ|[Hge HQ]].
        -- rewrite lookup_app_l in Hpc
             by (rewrite (inv_len w HI); by eapply lookup_lt_Some).
           pose proof (inv_window w HI _ _ _ HQ Hpc) as Hok.
           eapply window_ok_mono; [|exact Hok]. unfold blocked_on. cbn [callers].
           intros Hb. apply Forall_app. split; [done|].
           apply Forall_singleton. cbn. congruence.
        -- destruct (q - length (heap w)) as [|k] eqn:Hk; [|done].
           exfalso. apply Hne. lia.
Qed.

Lemma notify_all_parade p (cs : list (Caller O)) :
  Forall2 (fun cl cl' => c_parade cl' = c_parade cl ∧
                         (c_parade cl ≠ p → cl' = cl)) cs (notify_all p cs).
Proof.
  unfold notify_all. apply Forall2_fmap_r, Forall_Forall2_diag, Forall_forall.
  intros cl _. unfold compose. destruct (c_pc cl); [|by split..].
  destruct (decide (c_parade cl = p)); cbn; split; done.
Qed.

Lemma notify_all_other p q (cs : list (Caller O)) :
  q ≠ p →
  Forall (fun cl => c_parade cl = q → c_pc cl = Waiting) cs →
  Forall (fun cl => c_parade cl = q → c_pc cl = Waiting) (notify_all p cs).
Proof.
  intros Hne Hcs. unfold notify_all. apply Forall_fmap.
  eapply Forall_impl; [exact Hcs|]. intros cl Hcl. unfold compose.
  cbn beta in Hcl.
  destruct (c_pc cl) eqn:Hpc; [|intros Hq; by specialize (Hcl Hq)..].
  destruct (decide (c_parade cl = p)); cbn; [congruence|by rewrite ?Hpc].
Qed.

(** The end of the window keeps the invariant. *)
Lemma Inv_window_elapsed w p w' :
  Inv w → window_elapsed p w = Some w' → Inv w'.
Proof.
  intros HI. unfold window_elapsed.
  destruct (windows w !! p) as [pc|] eqn:Hpc; [|done].
  destruct (heap w !! p) as [P|] eqn:HP; [|done]. cbn [mbind option_bind].
  destruct pc; try done. cbn [start_wait_elapsed]. intros [= <-].
  pose proof (inv_window w HI _ _ _ HP Hpc) as (Hs & Hout & Hb).
  split; cbn [heap windows _current_parade callers].
  - rewrite !length_insert. apply HI.
  - eapply Forall_impl; [apply HI|]. intros cl. by rewrite length_insert.
  - intros i Q HQ HsQ.
    apply list_lookup_insert_Some in HQ as [(-> & <- & _)|(Hne & HQ)]; [done|].
    by eapply (inv_open w HI).
  - intros q Q pc HQ Hq.
    apply list_lookup_insert_Some in HQ as [(-> & <- & _)|(Hne & HQ)].
    + rewrite list_lookup_insert_eq in Hq by by eapply lookup_lt_Some.
      injection Hq as <-. cbn. done.
    + rewrite list_lookup_insert_ne in Hq by done.
      eapply window_ok_mono; [|by eapply (inv_window w HI)]. done.
Qed.

(** The end of [start_wait], whatever [call] did, keeps the invariant. *)
Lemma Inv_window_resume w p r w' :
  Inv w → window_resume p r w = Some w' → Inv w'.
Proof.
  intros HI. unfold window_resume.
  destruct (windows w !! p) as [pc|] eqn:Hpc; [|done].
  destruct (heap w !! p) as [P|] eqn:HP; [|done]. cbn [mbind option_bind].
  destruct pc as [|args| |]; try done.
  pose proof (inv_window w HI _ _ _ HP Hpc) as (Hs & Hout & Hargs & Hb).
  destruct (start_wait_resume r P) as [P' e] eqn:Hres. intros [= <-].
  assert (status_of P' = STATUS_CLOSED) as Hs'.
  { destruct r; injection Hres as <- <-; done. }
  split; cbn [heap windows _current_parade callers].
  - rewrite !length_insert. apply HI.
  - assert (Forall (fun cl => c_parade cl < length (heap w))
              (match r with Ok _ => notify_all p (callers w) | Raise _ => callers w end))
      as Hc.
    { destruct r; [|apply HI]. apply Forall_lookup. intros i cl' Hi.
      destruct (Forall2_lookup_r _ _ _ _ _ (notify_all_parade p (callers w)) Hi)
        as (cl & Hcl & Heq & _).
      rewrite Heq. eapply (Forall_lookup_1 _ _ _ _ (inv_callers w HI) Hcl). }
    eapply Forall_impl; [exact Hc|]. intros cl. by rewrite length_insert.
  - intros i Q HQ HsQ.
    apply list_lookup_insert_Some in HQ as [(-> & <- & _)|(Hne & HQ)];
      [congruence|]. by eapply (inv_open w HI).
  - intros q Q pc HQ Hq.
    apply list_lookup_insert_Some in HQ as [(-> & <- & _)|(Hne & HQ)].
    + rewrite list_lookup_insert_eq in Hq by by eapply lookup_lt_Some.
      injection Hq as <-.
      destruct r; injection Hres as <- <-; cbn; split_and!; done.
    + rewrite list_lookup_insert_ne in Hq by done.
      eapply window_ok_mono; [|by eapply (inv_window w HI)].
      unfold blocked_on. cbn [callers].
      destruct r; [|done]. apply notify_all_other. congruence.
Qed.

(** A notified caller returning keeps the invariant. *)
Lemma Inv_func_resume w c w' :
  Inv w → _func_resume c w = Some w' → Inv w'.
Proof.
  intros HI. unfold _func_resume.
  destruct (callers w !! c) as [cl|] eqn:Hcl; [|done]. cbn [mbind option_bind].
  destruct (c_pc cl) eqn:Hpc; try done.
  destruct (heap w !! c_parade cl) as [P|] eqn:HP; [|done].
  cbn [mbind option_bind]. intros [= <-].
  split; cbn [heap windows _current_parade callers]; try apply HI.
  - apply Forall_insert; [apply HI|]. cbn. by eapply lookup_lt_Some.
  - intros q Q pc HQ Hq. pose proof (inv_window w HI _ _ _ HQ Hq) as Hok.
    eapply window_ok_mono; [|exact Hok]. unfold blocked_on. cbn [callers].
    intros Hb. apply Forall_insert; [done|]. cbn. intros <-.
    pose proof (Forall_lookup_1 _ _ _ _ Hb Hcl eq_refl). congruence.
Qed.

Lemma Inv_exec ev w w' : Inv w → exec ev w = Some w' → Inv w'.
Proof.
  destruct ev; cbn [exec];
    eauto using Inv_func_enter, Inv_window_elapsed, Inv_window_resume,
      Inv_func_resume.
Qed.

Lemma Inv_run evs w w' : Inv w → run evs w = Some w' → Inv w'.
Proof.
  revert w. induction evs as [|ev evs IH]; intros w HI; cbn [run].
  - by intros [= <-].
  - destruct (exec ev w) as [w1|] eqn:Hex; [|done]. cbn [mbind option_bind].
    eauto using Inv_exec.
Qed.

Lemma Inv_reachable w : reachable w → Inv w.
Proof. intros [evs Hrun]. eapply Inv_run; [apply Inv_init|exact Hrun]. Qed.

Lemma run_app evs1 evs2 w :
  run (evs1 ++ evs2) w = w1 ← run evs1 w; run evs2 w1.
Proof.
  revert w. induction evs1 as [|ev evs1 IH]; intros w; [done|].
  cbn [app run]. destruct (exec ev w); [apply IH|done].
Qed.

Lemma reachable_run evs w w' :
  reachable w → run evs w = Some w' → reachable w'.
Proof.
  intros [evs0 H0] Hrun. exists (evs0 ++ evs). rewrite run_app, H0. exact Hrun.
Qed.
(** With no open current parade, no parade at all is open. *)
Lemma no_current_open_all_closed w i P :
  Inv w → current_open w = None → heap w !! i = Some P →
  status_of P ≠ STATUS_OPEN.
Proof.
  intros HI Hnone HP Hs. pose proof (inv_open w HI _ _ HP Hs) as Hcur.
  assert (current_open w = Some i) by (apply current_open_Some; eauto).
  congruence.
Qed.

Lemma Inv_open_unique w i j Pi Pj :
  Inv w → heap w !! i = Some Pi → heap w !! j = Some Pj →
  status_of Pi = STATUS_OPEN → status_of Pj = STATUS_OPEN → i = j.
Proof.
  intros HI Hi Hj Hsi Hsj.
  pose proof (inv_open w HI _ _ Hi Hsi). pose proof (inv_open w HI _ _ Hj Hsj).
  congruence.
Qed.

(** A crashed [start_wait] task stays crashed. *)
Lemma crashed_exec ev w w' p e :
  windows w !! p = Some (Crashed e) → exec ev w = Some w' →
  windows w' !! p = Some (Crashed e).
Proof.
  intros Hp. destruct ev as [id_ x|q|q outs|q e'|c]; cbn [exec].
  - unfold _func_enter.
    destruct (get_parade_cases w) as [(q & _ & ->)|[_ ->]]; unfold _func_admit;
      cbn [heap windows callers _current_parade].
    + destruct (heap w !! q); [|done]. cbn [mbind option_bind].
      destruct (feed id_ x _) as [[??]|?]; by intros [= <-].
    + destruct ((heap w ++ [Parade_init]) !! length (heap w)); [|done].
      cbn [mbind option_bind].
      destruct (feed id_ x _) as [[??]|?]; intros [= <-]; cbn [windows];
        by apply lookup_app_l_Some.
  - unfold window_elapsed. destruct (windows w !! q) as [pc|] eqn:Hq; [|done].
    destruct (heap w !! q); [|done]. cbn [mbind option_bind].
    destruct pc; try done. cbn [start_wait_elapsed]. intros [= <-]. cbn [windows].
    rewrite list_lookup_insert_ne; [done|]. intros ->. congruence.
  - unfold window_resume. destruct (windows w !! q) as [pc|] eqn:Hq; [|done].
    destruct (heap w !! q); [|done]. cbn [mbind option_bind].
    destruct pc; try done. destruct (start_wait_resume _ _). intros [= <-].
    cbn [windows]. rewrite list_lookup_insert_ne; [done|]. intros ->. congruence.
  - unfold window_resume. destruct (windows w !! q) as [pc|] eqn:Hq; [|done].
    destruct (heap w !! q); [|done]. cbn [mbind option_bind].
    destruct pc; try done. destruct (start_wait_resume _ _). intros [= <-].
    cbn [windows]. rewrite list_lookup_insert_ne; [done|]. intros ->. congruence.
  - unfold _func_resume. destruct (callers w !! c) as [cl|]; [|done].
    cbn [mbind option_bind]. destruct (c_pc cl); try done.
    destruct (heap w !! c_parade cl); [|done]. by intros [= <-].
Qed.

Lemma crashed_run evs w w' p e :
  windows w !! p = Some (Crashed e) → run evs w = Some w' →
  windows w' !! p = Some (Crashed e).
Proof.
  revert w. induction evs as [|ev evs IH]; intros w Hp; cbn [run].
  - by intros [= <-].
  - destruct (exec ev w) as [w1|] eqn:Hex; [|done]. cbn [mbind option_bind].
    eauto using crashed_exec.
Qed.

(** Under a crashed task the parade is closed, has no outputs, and all its
    callers are blocked. *)
Lemma crashed_blocks w p e :
  Inv w → windows w !! p = Some (Crashed e) →
  (∃ P, heap w !! p = Some P ∧ status_of P = STATUS_CLOSED ∧
        batch_output P = None) ∧
  blocked_on p w.
Proof.
  intros HI Hp. assert (p < length (heap w)) as Hlt.
  { rewrite <- (inv_len w HI). by eapply lookup_lt_Some. }
  apply lookup_lt_is_Some in Hlt as [P HP].
  pose proof (inv_window w HI _ _ _ HP Hp) as (? & ? & ?). eauto 10.
Qed.

(** A caller task keeps its place, its parade and its token. *)
Lemma caller_exec ev w w' c cl :
  exec ev w = Some w' → callers w !! c = Some cl →
  ∃ cl', callers w' !! c = Some cl' ∧
         c_parade cl' = c_parade cl ∧ c_id cl' = c_id cl.
Proof.
  intros Hex Hc. destruct ev as [id_ x|q|q outs|q e'|c0]; cbn [exec] in Hex.
  - unfold _func_enter in Hex.
    destruct (get_parade w) as [q w1] eqn:Hg.
    assert (callers w1 = callers w) as Hw1.
    { destruct (get_parade_cases w) as [(q' & _ & Hg')|[_ Hg']];
        rewrite Hg' in Hg; by injection Hg as <- <-. }
    unfold _func_admit in Hex. destruct (heap w1 !! q); [|done].
    cbn [mbind option_bind] in Hex.
    destruct (feed id_ x _) as [[??]|?]; injection Hex as <-; cbn [callers];
      rewrite Hw1; exists cl; split_and!; try done; by apply lookup_app_l_Some.
  - unfold window_elapsed in Hex. destruct (windows w !! q) as [pc|]; [|done].
    destruct (heap w !! q); [|done]. cbn [mbind option_bind] in Hex.
    destruct pc; try done. injection Hex as <-. eauto.
  - unfold window_resume in Hex. destruct (windows w !! q) as [pc|]; [|done].
    destruct (heap w !! q); [|done]. cbn [mbind option_bind] in Hex.
    destruct pc; try done. destruct (start_wait_resume _ _).
    injection Hex as <-. cbn [callers].
    destruct (Forall2_lookup_l _ _ _ _ _ (notify_all_parade q (callers w)) Hc)
      as (cl' & Hcl' & Hpar & _).
    exists cl'. split_and!; try done. unfold notify_all in Hcl'.
    rewrite list_lookup_fmap, Hc in Hcl'. injection Hcl' as <-.
    destruct (c_pc cl); try done. by destruct (decide _).
  - unfold window_resume in Hex. destruct (windows w !! q) as [pc|]; [|done].
    destruct (heap w !! q); [|done]. cbn [mbind option_bind] in Hex.
    destruct pc; try done. destruct (start_wait_resume _ _).
    injection Hex as <-. eauto.
  - unfold _func_resume in Hex. destruct (callers w !! c0) as [cl0|] eqn:Hc0; [|done].
    cbn [mbind option_bind] in Hex. destruct (c_pc cl0); try done.
    destruct (heap w !! c_parade cl0); [|done]. injection Hex as <-.
    cbn [callers]. destruct (decide (c0 = c)) as [->|Hne].
    + rewrite list_lookup_insert_eq by by eapply lookup_lt_Some.
      eexists. split; [done|]. cbn. by simplify_eq.
    + rewrite list_lookup_insert_ne by done. eauto.
Qed.

Lemma caller_run evs w w' c cl :
  run evs w = Some w' → callers w !! c = Some cl →
  ∃ cl', callers w' !! c = Some cl' ∧
         c_parade cl' = c_parade cl ∧ c_id cl' = c_id cl.
Proof.
  revert w cl. induction evs as [|ev evs IH]; intros w cl; cbn [run].
  - intros [= <-]. eauto.
  - destruct (exec ev w) as [w1|] eqn:Hex; [|done]. cbn [mbind option_bind].
    intros Hrun Hc. destruct (caller_exec _ _ _ _ _ Hex Hc) as (cl1 & Hc1 & <- & <-).
    eauto.
Qed.
End Loop_facts.

(** ** One batch from admission to delivery *)

Section Batch_run.
Context {I O : Type}.
Implicit Types (w : World I O) (P : Parade I O).

(** The callers of a run of submissions into parade [p]. *)
Definition waiting_on (p : nat) (adm : list (token * I)) : list (Caller O) :=
  (fun a => mkCaller p a.1 Waiting) <$> adm.



End Batch_run.



(** C4. Under every schedule of the loop, no two parades of a dispatcher
    are in [STATUS_OPEN] together. In every state reached, [get_parade]
    returns the current parade unchanged when there is one and it is open;
    otherwise it installs exactly one fresh open parade as the current one,
    together with its sleeping [start_wait] task, and the state it leaves
    again has at most one open parade. *)
Theorem at_most_one_open_parade {I O : Type}
    (evs : list (event I O)) (w : World I O) :
  run evs World_init = Some w →
  (∀ i j Pi Pj,
     heap w !! i = Some Pi → heap w !! j = Some Pj →
     status_of Pi = STATUS_OPEN → status_of Pj = STATUS_OPEN → i = j) ∧
  match current_open w with
  | Some p => get_parade w = (p, w)
  | None =>
      get_parade w =
        (length (heap w),
         {| heap := heap w ++ [Parade_init];
            windows := windows w ++ [Sleeping];
            _current_parade := Some (length (heap w));
            callers := callers w |})
  end ∧
  (∀ i j Pi Pj,
     heap (get_parade w).2 !! i = Some Pi →
     heap (get_parade w).2 !! j = Some Pj →
     status_of Pi = STATUS_OPEN → status_of Pj = STATUS_OPEN → i = j).
Proof.
  intros Hrun. assert (Inv w) as HI by (eapply Inv_run; [apply Inv_init|done]).
  split_and!.
  - intros i j Pi Pj. by apply Inv_open_unique.
  - destruct (get_parade_cases w) as [(p & Hp & Hg)|[Hnone Hg]].
    + by rewrite Hp.
    + by rewrite Hnone.
  - destruct (get_parade_cases w) as [(p & Hp & ->)|[Hnone ->]]; cbn [snd heap].
    + intros i j Pi Pj. by apply Inv_open_unique.
    + assert (∀ i Pi, (heap w ++ [Parade_init]) !! i = Some Pi →
                status_of Pi = STATUS_OPEN → i = length (heap w)) as Hlast.
      { intros i Pi [Hi|[Hge Hi]]%lookup_app_Some Hs.
        - by destruct (no_current_open_all_closed w i Pi).
        - destruct (i - length (heap w)) as [|k] eqn:Hk; [lia|done]. }
      intros i j Pi Pj Hi Hj Hsi Hsj.
      rewrite (Hlast _ _ Hi Hsi), (Hlast _ _ Hj Hsj). done.
Qed.

Lemma at_most_one_open_parade_witness :
  ∃ w : World nat nat,
    run [Submit "a" 1; Submit "b" 2; WindowElapsed 0; Submit "c" 3;
         CallReturns 0 [10; 20]; Resume 0] World_init = Some w ∧
    status_of <$> heap w = [STATUS_CLOSED; STATUS_OPEN] ∧
    (∀ i j Pi Pj,
       heap w !! i = Some Pi → heap w !! j = Some Pj →
       status_of Pi = STATUS_OPEN → status_of Pj = STATUS_OPEN → i = j).
Proof.
  eexists. split; [vm_compute; reflexivity|]. split; [reflexivity|].
  refine (proj1 (at_most_one_open_parade
    [Submit "a" 1; Submit "b" 2; WindowElapsed 0; Submit "c" 3;
     CallReturns 0 [10; 20]; Resume 0] _ _)).
  vm_compute. reflexivity.
Defined.

(** C2 (as the code has it). When [call] raises, [start_wait] ends with
    that exception, the parade is left in [STATUS_CLOSED] with no output
    mapping, and nobody is notified: under every later schedule the task
    stays crashed, and every caller that was waiting on the parade is still
    in its [wait()], with no outcome at all. *)
Theorem failed_call_blocks_callers {I O : Type}
    (evs evs' : list (event I O)) (w w' : World I O) (p : nat) (e : exn) :
  run evs World_init = Some w →
  run (CallRaises p e :: evs') w = Some w' →
  windows w' !! p = Some (Crashed e) ∧
  (∃ P', heap w' !! p = Some P' ∧ status_of P' = STATUS_CLOSED ∧
         batch_output P' = None) ∧
  (∀ c cl, callers w !! c = Some cl → c_parade cl = p →
           c_pc cl = Waiting ∧ callers w' !! c = Some cl) ∧
  Forall (fun cl => c_parade cl = p → c_pc cl = Waiting) (callers w').
Proof.
  intros Hrun Hrun'. cbn [run exec] in Hrun'.
  destruct (window_resume p (Raise e) w) as [w1|] eqn:Hres; [|done].
  cbn [mbind option_bind] in Hrun'.
  assert (Inv w) as HI by (eapply Inv_run; [apply Inv_init|done]).
  assert (Inv w1) as HI1 by by eapply Inv_window_resume.
  assert (Inv w') as HI' by by eapply Inv_run.
  assert (windows w1 !! p = Some (Crashed e) ∧ callers w1 = callers w) as [Hc1 Hcs].
  { unfold window_resume in Hres.
    destruct (windows w !! p) as [pc|] eqn:Hpc; [|done].
    destruct (heap w !! p); [|done]. cbn [mbind option_bind] in Hres.
    destruct pc; try done. injection Hres as <-. cbn [windows callers].
    split; [|done]. apply list_lookup_insert_eq. by eapply lookup_lt_Some. }
  assert (windows w' !! p = Some (Crashed e)) as Hc' by by eapply crashed_run.
  destruct (crashed_blocks w' p e HI' Hc') as [HP' Hb'].
  destruct (crashed_blocks w1 p e HI1 Hc1) as [_ Hb1].
  split_and!; try done.
  intros c cl Hcl Hpar. rewrite <- Hcs in Hcl.
  pose proof (Forall_lookup_1 _ _ _ _ Hb1 Hcl Hpar) as Hw.
  split; [done|].
  destruct (caller_run _ _ _ _ _ Hrun' Hcl) as (cl' & Hcl' & Hpar' & Hid').
  assert (c_pc cl' = Waiting) as Hw'.
  { apply (Forall_lookup_1 _ _ _ _ Hb' Hcl'). congruence. }
  rewrite Hcl'. f_equal. destruct cl, cl'. cbn in *. congruence.
Qed.

Lemma failed_call_blocks_callers_witness :
  ∃ w w' : World nat nat,
    run [Submit "a" 1; Submit "b" 2; WindowElapsed 0] World_init = Some w ∧
    run [CallRaises 0 (OtherError "ClientConnectorError"); Submit "c" 3;
         WindowElapsed 1; CallReturns 1 [30]; Resume 2] w = Some w' ∧
    windows w' !! 0 = Some (Crashed (OtherError "ClientConnectorError")) ∧
    Forall (fun cl => c_parade cl = 0 → c_pc cl = Waiting) (callers w').
Proof.
  eexists _, _. split; [vm_compute; reflexivity|].
  split; [vm_compute; reflexivity|].
  refine (let H := failed_call_blocks_callers
            [Submit "a" 1; Submit "b" 2; WindowElapsed 0]
            [Submit "c" 3; WindowElapsed 1; CallReturns 1 [30]; Resume 2]
            _ _ 0 (OtherError "ClientConnectorError") _ _ in
          conj (proj1 H) (proj2 (proj2 (proj2 H))));
    vm_compute; reflexivity.
Defined.

(** Once the task of a parade has crashed, a caller holding the parade is
    blocked in every state that follows. *)
Lemma blocked_forever {I O : Type} (evs : list (event I O))
    (w w' : World I O) (p c : nat) (e : exn) (cl : Caller O) :
  Inv w → windows w !! p = Some (Crashed e) →
  callers w !! c = Some cl → c_parade cl = p →
  run evs w = Some w' →
  c_pc cl = Waiting ∧ callers w' !! c = Some cl.
Proof.
  intros HI Hp Hcl Hpar Hrun.
  destruct (crashed_blocks w p e HI Hp) as [_ Hb].
  pose proof (Forall_lookup_1 _ _ _ _ Hb Hcl Hpar) as Hw. split; [done|].
  assert (Inv w') as HI' by by eapply Inv_run.
  destruct (crashed_blocks w' p e HI' (crashed_run _ _ _ _ _ Hp Hrun)) as [_ Hb'].
  destruct (caller_run _ _ _ _ _ Hrun Hcl) as (cl' & Hcl' & Hpar' & Hid').
  assert (c_pc cl' = Waiting) as Hw'.
  { apply (Forall_lookup_1 _ _ _ _ Hb' Hcl'). congruence. }
  rewrite Hcl'. f_equal. destruct cl, cl'. cbn in *. congruence.
Qed.

(** C2, refuted as stated: one caller, and a [call] that raises. The caller
    gets no failure outcome: it is blocked in [wait()] after the failure and
    in every state any later schedule leads to. *)
Lemma failed_call_no_outcome :
  ∃ w : World nat nat,
    run [Submit "a" 1; WindowElapsed 0;
         CallRaises 0 (OtherError "ClientConnectorError")] World_init = Some w ∧
    callers w = [mkCaller 0 "a" Waiting] ∧
    ∀ evs w', run evs w = Some w' →
      callers w' !! 0 = Some (mkCaller 0 "a" Waiting).
Proof.
  eexists. split; [vm_compute; reflexivity|]. split; [reflexivity|].
  intros evs w' Hrun.
  eapply (blocked_forever evs _ w' 0 0 (OtherError "ClientConnectorError"));
    [| | | |exact Hrun]; [|reflexivity..].
  eapply (Inv_run [Submit "a" 1; WindowElapsed 0;
                   CallRaises 0 (OtherError "ClientConnectorError")]);
    [apply Inv_init|vm_compute; reflexivity].
Qed.


(** A submission arriving after the window of the current parade has
    ended: it is admitted to a fresh parade and waits there. *)
Example submission_after_window :
  ∃ w w' : World nat nat,
    run [Submit "a" 1; WindowElapsed 0] World_init = Some w ∧
    status_of <$> heap w = [STATUS_CLOSED] ∧
    _current_parade w = Some 0 ∧
    exec (Submit "b" 2) w = Some w' ∧
    (status_of <$> heap w') = [STATUS_CLOSED; STATUS_OPEN] ∧
    (batch_input <$> heap w') = [[("a", 1)]; [("b", 2)]] ∧
    callers w' = [mkCaller 0 "a" Waiting; mkCaller 1 "b" Waiting].
Proof.
  eexists _, _. split; [vm_compute; reflexivity|]. split; [reflexivity|].
  split; [reflexivity|]. split; [vm_compute; reflexivity|]. done.
Qed.

(** C9 (as the code has it). When [call] returns a list whose length is
    not the number of admitted inputs, [start_wait] goes on as after any
    returned call: the task finishes without an exception, the waiters are
    notified, and the output mapping is the positional zip cut at the
    shorter list. A caller whose token sits at or beyond the end of the
    outputs reads [None]; outputs beyond the inputs are dropped. *)
Theorem mismatched_outputs_not_detected {I O : Type}
    (w : World I O) (p : nat) (P : Parade I O) (args : list I)
    (outputs : list O) :
  heap w !! p = Some P →
  windows w !! p = Some (Calling args) →
  NoDup (od_keys (batch_input P)) →
  length outputs ≠ length (batch_input P) →
  ∃ w' P',
    exec (CallReturns p outputs) w = Some w' ∧
    windows w' !! p = Some Finished ∧
    callers w' = notify_all p (callers w) ∧
    heap w' !! p = Some P' ∧
    batch_output P' = Some (zip (od_keys (batch_input P)) outputs) ∧
    length (zip (od_keys (batch_input P)) outputs)
    = length (batch_input P) `min` length outputs ∧
    ∀ i id_, od_keys (batch_input P) !! i = Some id_ →
      batch_output_get id_ P' = Ok (outputs !! i).
Proof.
  intros HP Hpc Hnd _. cbn [exec]. unfold window_resume.
  rewrite Hpc, HP. cbn [mbind option_bind]. rewrite start_wait_resume_ok.
  eexists _, _. split; [done|]. cbn [heap windows _current_parade callers].
  rewrite !list_lookup_insert_eq by by eapply lookup_lt_Some.
  split_and!; try done.
  - cbn. by rewrite od_of_pairs_NoDup by by apply NoDup_zip_keys.
  - rewrite length_zip. unfold od_keys. by rewrite length_fmap.
  - intros i id_ Hi.
    pose proof (batch_output_get_positional outputs P i id_ Hnd Hi) as Hget.
    by rewrite start_wait_resume_ok in Hget.
Qed.

Lemma mismatched_outputs_not_detected_witness :
  ∃ (w : World nat nat) (P : Parade nat nat),
    run [Submit "a" 1; Submit "b" 2; WindowElapsed 0] World_init = Some w ∧
    heap w !! 0 = Some P ∧
    windows w !! 0 = Some (Calling [1; 2]) ∧
    NoDup (od_keys (batch_input P)) ∧
    length [10] ≠ length (batch_input P) ∧
    ∃ w' P',
      exec (CallReturns 0 [10]) w = Some w' ∧
      windows w' !! 0 = Some Finished ∧
      callers w' = notify_all 0 (callers w) ∧
      heap w' !! 0 = Some P' ∧
      batch_output P' = Some (zip (od_keys (batch_input P)) [10]) ∧
      length (zip (od_keys (batch_input P)) [10])
      = length (batch_input P) `min` length [10] ∧
      ∀ i id_, od_keys (batch_input P) !! i = Some id_ →
        batch_output_get id_ P' = Ok ([10] !! i).
Proof.
  eexists _, _. split; [vm_compute; reflexivity|].
  split; [vm_compute; reflexivity|]. split; [vm_compute; reflexivity|].
  assert (NoDup (od_keys [("a", 1); ("b", 2)])) as Hnd
    by (apply (bool_decide_unpack _); vm_compute; exact I).
  split; [exact Hnd|]. split; [vm_compute; discriminate|].
  apply mismatched_outputs_not_detected with (args := [1; 2]).
  - vm_compute; reflexivity.
  - vm_compute; reflexivity.
  - exact Hnd.
  - vm_compute; discriminate.
Defined.

(** C9, refuted as stated: two admitted inputs, one returned output. The
    task finishes normally, both callers are woken; the first reads its
    output and the second reads [None]. Nobody receives an error. *)
Lemma short_outputs_are_truncated :
  ∃ w : World nat nat,
    run [Submit "a" 1; Submit "b" 2; WindowElapsed 0; CallReturns 0 [10];
         Resume 0; Resume 1] World_init = Some w ∧
    windows w = [Finished] ∧
    (batch_output <$> heap w) = [Some [("a", 10)]] ∧
    callers w = [mkCaller 0 "a" (Returned (Ok (Some 10)));
                 mkCaller 0 "b" (Returned (Ok None))].
Proof. eexists. split; [vm_compute; reflexivity|]. done. Qed.

(** ** MarshalService *)

Lemma od_get_set_ne {V : Type} (k k' : string) (v : V) (d : list (string * V)) :
  k ≠ k' → od_get k (od_set k' v d) = od_get k d.
Proof.
  intros Hne. induction d as [|[k0 v0] d IH]; simpl.
  - rewrite decide_False; [done|congruence].
  - destruct (decide (k0 = k')) as [->|Hne0]; simpl.
    + rewrite !decide_False; [done|congruence..].
    + destruct (decide (k0 = k)); [done|apply IH].
Qed.

(** [d.update(l)] leaves the entries under keys outside [l] as they were. *)
Lemma od_get_update_other {V : Type} (k : string) (d l : list (string * V)) :
  k ∉ od_keys l → od_get k (od_update d l) = od_get k d.
Proof.
  unfold od_update, od_keys. revert d.
  induction l as [|[k' v'] l IH]; intros d Hk; [done|].
  rewrite fmap_cons in Hk. apply not_elem_of_cons in Hk as [Hne Hk].
  cbn [foldl fst snd]. rewrite IH by done. by apply od_get_set_ne.
Qed.

(** The batch callback hands on whatever list the split of the merged
    reply yields, of whatever length; only a reply that could not be split
    at all ([None]) is turned into one server error per request. *)
Lemma batch_callback_passes_on
    (flag : string) (make_http_headers : string → list (string * string))
    (merged_post :
       string → list (string * string) → list Request → res (option (list Output)))
    (s : MarshalService) (api_name : string) (requests : list Request) :
  batch_callback flag make_http_headers merged_post s api_name requests
  = match merged_post (api_url s api_name)
            (od_update [(flag, "true")]
               (make_http_headers ("merged " +:+ api_name))) requests with
    | Ok (Some resps) => Ok resps
    | Ok None => Ok (replicate (length requests) HTTPInternalServerError)
    | Raise e => Raise e
    end.
Proof.
  unfold batch_callback. destruct (merged_post _ _ _) as [[resps|]|e]; done.
Qed.

(** C10. A second [add_batch_handler] for a name changes nothing: the
    service, its handler for the name and the dispatchers constructed are
    those left by the first call, whatever latency the second call gives.
    The first call constructs one dispatcher when the name is new, and none
    when it is taken. *)
Theorem add_batch_handler_idempotent
    (s : MarshalService) (api_name : string) (l1 l2 : Z) :
  add_batch_handler api_name l2 (add_batch_handler api_name l1 s)
  = add_batch_handler api_name l1 s ∧
  is_Some (batch_handlers (add_batch_handler api_name l1 s) !! api_name) ∧
  match batch_handlers s !! api_name with
  | Some d => add_batch_handler api_name l1 s = s
  | None =>
      batch_handlers (add_batch_handler api_name l1 s) !! api_name
      = Some (length (dispatchers s)) ∧
      dispatchers (add_batch_handler api_name l1 s)
      = dispatchers s ++ [{| interval := l1; callback_api_name := api_name |}]
  end.
Proof.
  assert (∀ s' l, is_Some (batch_handlers s' !! api_name) →
            add_batch_handler api_name l s' = s') as Htaken.
  { intros s' l [d Hd]. unfold add_batch_handler. by rewrite Hd. }
  destruct (batch_handlers s !! api_name) as [d|] eqn:Hd.
  - rewrite !Htaken by (rewrite ?Htaken; eauto). eauto.
  - assert (batch_handlers (add_batch_handler api_name l1 s) !! api_name
            = Some (length (dispatchers s))) as Hnew.
    { unfold add_batch_handler. rewrite Hd. cbn [batch_handlers].
      apply lookup_insert_eq. }
    split_and!; [apply Htaken; eauto|eauto|done|].
    unfold add_batch_handler. by rewrite Hd.
Qed.

(** C8, evaluated on the code. A request whose name has a batch handler
    is handed to that handler's dispatcher, and its outcome is the
    dispatcher's. Any other request is not relayed: [_relay_handler] raises
    [AttributeError] at [headers.update], since the header object of a
    request is read-only; the backend is never posted to, whatever it would
    reply, and the request is left as received. *)
Theorem request_routing
    (make_http_headers : string → list (string * string))
    (client_post : string → string → list (string * string) → res ClientResponse)
    (submit : nat → Request → res (option Output))
    (s : MarshalService) (request : Request) :
  match batch_handlers s !! match_info_name request with
  | Some d =>
      request_dispatcher make_http_headers client_post submit s request
      = (request, submit d request)
  | None =>
      request_dispatcher make_http_headers client_post submit s request
      = (request, Raise AttributeError)
  end.
Proof.
  unfold request_dispatcher.
  destruct (batch_handlers s !! match_info_name request) as [d|]; done.
Qed.

(** A request for a name with no handler, on a backend that would answer
    200: what comes back is the [AttributeError]. *)
Example relay_of_unregistered_name :
  request_dispatcher (fun _ => [])
    (fun _ _ _ => Ok {| cr_status := 200; cr_headers := []; cr_body := "ok" |})
    (fun _ _ => Ok None)
    (MarshalService_init "localhost" (Some 5000%Z))
    {| match_info_name := "predict";
       req_headers := [("Content-Type", "application/json")];
       req_data := "body" |}
  = ({| match_info_name := "predict";
        req_headers := [("Content-Type", "application/json")];
        req_data := "body" |}, Raise AttributeError).
Proof. reflexivity. Qed.

(** ** TensorflowTensorHandler *)

Import TensorflowTensorHandler.

Section handler_facts.
Variable tensor : Type.
Variable pyslice : Type.
Variable bytes_decode : list Byte.byte → option string.
Variable json_loads : string → option json.
Variable decode_b64_if_needed : json → res json.
Variable concat_list : list (option (list json)) → res (list json * list pyslice).
Variable tf_constant : list json → res tensor.
Variable func : tensor → res tensor.
Variable decode_tf_if_needed : tensor → res json.
Variable getitem : list json → pyslice → res json.
Variable api_func_result_to_json : json → res string.

Local Abbreviation try_body' := (try_body bytes_decode json_loads decode_b64_if_needed).
Local Abbreviation decode_loop' :=
  (decode_loop bytes_decode json_loads decode_b64_if_needed).

(** The module [json] has no attribute [exceptions]: whatever the [try]
    body raised, the [except] clause raises [AttributeError]. *)
Lemma except_clause_raises e : except_clause e = Raise AttributeError.
Proof. reflexivity. Qed.

Lemma try_body_undecodable data :
  bytes_decode data = None ∨
  (∃ s, bytes_decode data = Some s ∧ json_loads s = None) →
  is_ok (try_body' data) = false.
Proof.
  unfold try_body. intros [->|(s & -> & Hs)]; [done|].
  cbn [mbind res_bind]. by rewrite Hs.
Qed.

(** One request whose [try] body raises makes the whole first loop raise
    [AttributeError]. *)
Lemma decode_loop_raises requests data i st :
  data ∈ requests → is_ok (try_body' data) = false →
  decode_loop' i requests st = Raise AttributeError.
Proof.
  intros Hin Hbad. revert i st.
  induction requests as [|d requests IH]; intros i st.
  - by apply elem_of_nil in Hin.
  - cbn [decode_loop]. destruct (try_body' d) as [it|e] eqn:Hd.
    + apply elem_of_cons in Hin as [->|Hin]; [by rewrite Hd in Hbad|].
      destruct it; cbn [mbind res_bind]; by apply IH.
    + by rewrite except_clause_raises.
Qed.

(** The last loop puts a 200 response at every index it visits and leaves
    the lower indices alone. *)
Lemma respond_loop_overwrites results : ∀ i responses rs,
  respond_loop api_func_result_to_json i results responses = Ok rs →
  length rs = length responses ∧
  (∀ j, j < i → rs !! j = responses !! j) ∧
  ∀ j, i ≤ j < i + length results →
       ∃ r, rs !! j = Some r ∧ status r = 200%Z.
Proof.
  induction results as [|result results IH]; intros i responses rs;
    cbn [respond_loop].
  - intros [= <-]. split_and!; [done|done|]. cbn. lia.
  - destruct (api_func_result_to_json result) as [str|]; [|done].
    cbn [mbind res_bind]. destruct (decide (i < length responses)); [|done].
    intros Hrs. destruct (IH _ _ _ Hrs) as (Hlen & Hlow & Hall).
    rewrite length_insert in Hlen. split_and!; [done| |].
    + intros j Hj. rewrite Hlow by lia. apply list_lookup_insert_ne. lia.
    + intros j Hj. destruct (decide (j = i)) as [->|Hne].
      * rewrite Hlow by lia. rewrite list_lookup_insert_eq by done. eauto.
      * apply Hall. cbn in Hj. lia.
Qed.
End handler_facts.

(** C7, evaluated on the code. A batch that holds a request whose data
    is not UTF-8, or whose text is not JSON, is not answered at all:
    [handle_batch_request] raises [AttributeError] from its [except] clause,
    for every request of the batch and whatever the collaborators do. *)
Theorem undecodable_request_aborts_batch
    (tensor pyslice : Type)
    (bytes_decode : list Byte.byte → option string)
    (json_loads : string → option json)
    (decode_b64_if_needed : json → res json)
    (concat_list : list (option (list json)) → res (list json * list pyslice))
    (tf_constant : list json → res tensor)
    (func : tensor → res tensor)
    (decode_tf_if_needed : tensor → res json)
    (getitem : list json → pyslice → res json)
    (api_func_result_to_json : json → res string)
    (requests : list (list Byte.byte)) (data : list Byte.byte) :
  data ∈ requests →
  bytes_decode data = None ∨
  (∃ s, bytes_decode data = Some s ∧ json_loads s = None) →
  handle_batch_request tensor pyslice bytes_decode json_loads
    decode_b64_if_needed concat_list tf_constant func decode_tf_if_needed
    getitem api_func_result_to_json requests
  = Raise AttributeError.
Proof.
  intros Hin Hbad. unfold handle_batch_request.
  erewrite decode_loop_raises; [done|exact Hin|].
  by apply try_body_undecodable.
Qed.

(** A decoder for the witness below: it knows the empty object only. *)
Definition toy_json_loads (s : string) : option json :=
  if decide (s = "{}") then Some (JObj []) else None.

Lemma undecodable_request_aborts_batch_witness :
  let ok := String.list_byte_of_string "{}" in
  let bad := String.list_byte_of_string "not json" in
  bad ∈ [ok; bad; ok] ∧
  (∃ s, Some (String.string_of_list_byte bad) = Some s ∧ toy_json_loads s = None) ∧
  handle_batch_request unit nat
    (fun bs => Some (String.string_of_list_byte bs)) toy_json_loads
    (fun j => Ok j) (fun l => Ok ([], [])) (fun _ => Ok ()) (fun t => Ok t)
    (fun _ => Ok (JArr [])) (fun _ _ => Ok JNull) (fun _ => Ok "null")
    [ok; bad; ok]
  = Raise AttributeError.
Proof.
  intros ok bad.
  assert (bad ∈ [ok; bad; ok]) as Hin
    by (apply elem_of_cons; right; apply elem_of_cons; by left).
  assert (∃ s, Some (String.string_of_list_byte bad) = Some s ∧
               toy_json_loads s = None) as Hbad
    by (eexists; split; [reflexivity|vm_compute; reflexivity]).
  split; [exact Hin|]. split; [exact Hbad|].
  exact (undecodable_request_aborts_batch unit nat
           (fun bs => Some (String.string_of_list_byte bs)) toy_json_loads
           (fun j => Ok j) (fun l => Ok ([], [])) (fun _ => Ok ()) (fun t => Ok t)
           (fun _ => Ok (JArr [])) (fun _ _ => Ok JNull) (fun _ => Ok "null")
           [ok; bad; ok] bad Hin (or_intror Hbad)).
Defined.

(** * Further properties of the dispatcher *)

Section Loop_more.
Context {I O : Type}.
Implicit Types (w : World I O) (P : Parade I O) (p c : nat).

(** One transition leaves a parade that is not open closed, with the
    inputs it has. *)
Lemma frozen_exec ev w w' p P :
  exec ev w = Some w' → heap w !! p = Some P →
  status_of P ≠ STATUS_OPEN →
  ∃ P', heap w' !! p = Some P' ∧ batch_input P' = batch_input P ∧
        status_of P' ≠ STATUS_OPEN.
Proof.
  intros Hex HP Hs. destruct ev as [id_ x|q|q outs|q e|c]; cbn [exec] in Hex.
  - unfold _func_enter in Hex.
    destruct (get_parade_cases w) as [(q & Hq & Hg)|[Hnone Hg]];
      rewrite Hg in Hex; unfold _func_admit in Hex.
    + apply current_open_Some in Hq as (_ & Q & HQ & HsQ).
      rewrite HQ in Hex. cbn [mbind option_bind] in Hex.
      rewrite feed_open in Hex by done. injection Hex as <-. cbn [heap].
      exists P. rewrite list_lookup_insert_ne; [done|]. intros ->. congruence.
    + cbn [heap] in Hex. rewrite lookup_app_r in Hex by done.
      rewrite Nat.sub_diag in Hex. cbn [lookup list_lookup mbind option_bind] in Hex.
      rewrite feed_open in Hex by done. injection Hex as <-. cbn [heap].
      exists P. split; [|done].
      rewrite list_lookup_insert_ne
        by (intros <-; apply lookup_lt_Some in HP; lia).
      by apply lookup_app_l_Some.
  - unfold window_elapsed in Hex. destruct (windows w !! q) as [pc|]; [|done].
    destruct (heap w !! q) as [Q|] eqn:HQ; [|done]. cbn [mbind option_bind] in Hex.
    destruct pc; try done. injection Hex as <-. cbn [heap].
    destruct (decide (q = p)) as [->|Hne].
    + rewrite list_lookup_insert_eq by by eapply lookup_lt_Some.
      simplify_eq. eexists. split; [done|]. done.
    + rewrite list_lookup_insert_ne by done. eauto.
  - unfold window_resume in Hex. destruct (windows w !! q) as [pc|]; [|done].
    destruct (heap w !! q) as [Q|] eqn:HQ; [|done]. cbn [mbind option_bind] in Hex.
    destruct pc; try done. rewrite start_wait_resume_ok in Hex.
    injection Hex as <-. cbn [heap].
    destruct (decide (q = p)) as [->|Hne].
    + rewrite list_lookup_insert_eq by by eapply lookup_lt_Some.
      simplify_eq. eexists. split; [done|]. done.
    + rewrite list_lookup_insert_ne by done. eauto.
  - unfold window_resume in Hex. destruct (windows w !! q) as [pc|]; [|done].
    destruct (heap w !! q) as [Q|] eqn:HQ; [|done]. cbn [mbind option_bind] in Hex.
    destruct pc; try done. rewrite start_wait_resume_raise in Hex.
    injection Hex as <-. cbn [heap].
    destruct (decide (q = p)) as [->|Hne].
    + rewrite list_lookup_insert_eq by by eapply lookup_lt_Some.
      simplify_eq. eexists. split; [done|]. done.
    + rewrite list_lookup_insert_ne by done. eauto.
  - unfold _func_resume in Hex. destruct (callers w !! c) as [cl|]; [|done].
    cbn [mbind option_bind] in Hex. destruct (c_pc cl); try done.
    destruct (heap w !! c_parade cl); [|done]. injection Hex as <-. eauto.
Qed.

(** X1. A parade that has left [STATUS_OPEN] is never open again and
    admits nothing more: whatever the loop does next, from any state, it
    keeps exactly the inputs it had. *)
Theorem closed_parade_is_frozen (evs : list (event I O)) w w' p P :
  run evs w = Some w' → heap w !! p = Some P →
  status_of P ≠ STATUS_OPEN →
  ∃ P', heap w' !! p = Some P' ∧ batch_input P' = batch_input P ∧
        status_of P' ≠ STATUS_OPEN.
Proof.
  revert w P. induction evs as [|ev evs IH]; intros w P; cbn [run].
  - intros [= <-]. eauto.
  - destruct (exec ev w) as [w1|] eqn:Hex; [|done]. cbn [mbind option_bind].
    intros Hrun HP Hs.
    destruct (frozen_exec _ _ _ _ _ Hex HP Hs) as (P1 & HP1 & Hin1 & Hs1).
    destruct (IH _ _ Hrun HP1 Hs1) as (P' & HP' & Hin' & Hs').
    exists P'. split_and!; [done|congruence|done].
Qed.
End Loop_more.

Lemma closed_parade_is_frozen_witness :
  ∃ (w w' : World nat nat) (P : Parade nat nat),
    run [Submit "a" 1; WindowElapsed 0] World_init = Some w ∧
    run [Submit "b" 2; CallReturns 0 [10]; Submit "c" 3; Resume 0] w
    = Some w' ∧
    heap w !! 0 = Some P ∧
    status_of P ≠ STATUS_OPEN ∧
    ∃ P', heap w' !! 0 = Some P' ∧ batch_input P' = batch_input P ∧
          status_of P' ≠ STATUS_OPEN.
Proof.
  eexists _, _, _. split; [vm_compute; reflexivity|].
  match goal with
  | |- run _ ?W = _ ∧ _ =>
      split; [vm_compute; reflexivity|];
      split; [vm_compute; reflexivity|];
      split; [vm_compute; discriminate|];
      refine (closed_parade_is_frozen
                [Submit "b" 2; CallReturns 0 [10]; Submit "c" 3; Resume 0]
                W _ 0 _ _ _ _);
      vm_compute; first [reflexivity|discriminate]
  end.
Defined.

Section Loop_stages.
Context {I O : Type}.
Implicit Types (w : World I O) (P : Parade I O) (p c : nat).

Lemma Inv_window_of w p P :
  Inv w → heap w !! p = Some P →
  ∃ pc, windows w !! p = Some pc ∧ window_ok P pc p w.
Proof.
  intros HI HP. assert (p < length (windows w)) as Hlt.
  { rewrite (inv_len w HI). by eapply lookup_lt_Some. }
  apply lookup_lt_is_Some in Hlt as [pc Hpc].
  exists pc. split; [done|]. by eapply (inv_window w HI).
Qed.

(** X2. In every state the loop can reach, each parade has its one
    [start_wait] task, and the parade is in [STATUS_OPEN] exactly while that
    task is still in its [sleep]; from then on it is in [STATUS_CLOSED].
    No task ever sees a parade in [STATUS_RETURNED]. *)
Theorem status_follows_window_task (evs : list (event I O)) w p P :
  run evs World_init = Some w → heap w !! p = Some P →
  ∃ pc, windows w !! p = Some pc ∧
        (status_of P = STATUS_OPEN ↔ pc = Sleeping) ∧
        (status_of P = STATUS_CLOSED ↔ pc ≠ Sleeping) ∧
        status_of P ≠ STATUS_RETURNED.
Proof.
  intros Hrun HP. assert (Inv w) as HI by (eapply Inv_run; [apply Inv_init|done]).
  destruct (Inv_window_of w p P HI HP) as (pc & Hpc & Hok).
  exists pc. split; [done|].
  destruct pc; cbn in Hok; destruct_and?; split_and!;
    try (split; intros; congruence); congruence.
Qed.

(** X3. In every state the loop can reach, a parade has an output mapping
    exactly when its [call] has returned; and while [call] is running, the
    arguments it was entered with are still the values of the parade's input
    mapping, in order. *)
Theorem outputs_follow_call (evs : list (event I O)) w p P :
  run evs World_init = Some w → heap w !! p = Some P →
  ∃ pc, windows w !! p = Some pc ∧
        (is_Some (batch_output P) ↔ pc = Finished) ∧
        (∀ args, pc = Calling args → args = od_values (batch_input P)).
Proof.
  intros Hrun HP. assert (Inv w) as HI by (eapply Inv_run; [apply Inv_init|done]).
  destruct (Inv_window_of w p P HI HP) as (pc & Hpc & Hok).
  exists pc. split; [done|].
  destruct pc; cbn in Hok; destruct_and?; split_and!;
    try (split; [intros [? ?]; congruence|done]); try done.
  intros ? [= <-]. done.
Qed.
End Loop_stages.

Lemma status_follows_window_task_witness :
  ∃ (w : World nat nat) (P : Parade nat nat),
    run [Submit "a" 1; WindowElapsed 0; Submit "b" 2; CallReturns 0 [10]]
      World_init = Some w ∧
    heap w !! 1 = Some P ∧
    ∃ pc, windows w !! 1 = Some pc ∧
          (status_of P = STATUS_OPEN ↔ pc = Sleeping) ∧
          (status_of P = STATUS_CLOSED ↔ pc ≠ Sleeping) ∧
          status_of P ≠ STATUS_RETURNED.
Proof.
  eexists _, _. split; [vm_compute; reflexivity|].
  split; [vm_compute; reflexivity|].
  refine (status_follows_window_task
    [Submit "a" 1; WindowElapsed 0; Submit "b" 2; CallReturns 0 [10]]
    _ 1 _ _ _); vm_compute; reflexivity.
Defined.

Lemma outputs_follow_call_witness :
  ∃ (w : World nat nat) (P : Parade nat nat),
    run [Submit "a" 1; Submit "b" 2; WindowElapsed 0] World_init = Some w ∧
    heap w !! 0 = Some P ∧
    ∃ pc, windows w !! 0 = Some pc ∧
          (is_Some (batch_output P) ↔ pc = Finished) ∧
          (∀ args, pc = Calling args → args = od_values (batch_input P)).
Proof.
  eexists _, _. split; [vm_compute; reflexivity|].
  split; [vm_compute; reflexivity|].
  refine (outputs_follow_call
    [Submit "a" 1; Submit "b" 2; WindowElapsed 0] _ 0 _ _ _);
    vm_compute; reflexivity.
Defined.

Section Delivery.
Context {I O : Type}.
Implicit Types (w : World I O) (P : Parade I O) (p c : nat) (cl : Caller O).

(** What the stage of a caller task says: a notified caller's parade has
    its outputs, and a caller that has finished returned the entry of its
    own token in them. *)
Definition caller_ok (w : World I O) (cl : Caller O) : Prop :=
  match c_pc cl with
  | Waiting => True
  | Notified =>
      ∃ P d, heap w !! c_parade cl = Some P ∧ batch_output P = Some d
  | Returned r =>
      ∃ P d, heap w !! c_parade cl = Some P ∧ batch_output P = Some d ∧
             r = Ok (od_get (c_id cl) d)
  end.

Definition Delivered (w : World I O) : Prop := Forall (caller_ok w) (callers w).

(** [w'] still has every output mapping that [w] has. *)
Definition keeps_outputs (w w' : World I O) : Prop :=
  ∀ p P d, heap w !! p = Some P → batch_output P = Some d →
           ∃ P', heap w' !! p = Some P' ∧ batch_output P' = Some d.

Lemma caller_ok_mono w w' cl :
  keeps_outputs w w' → caller_ok w cl → caller_ok w' cl.
Proof.
  intros Hk. unfold caller_ok. destruct (c_pc cl); [done| |].
  - intros (P & d & HP & Hd). destruct (Hk _ _ _ HP Hd) as (P' & ? & ?). eauto.
  - intros (P & d & HP & Hd & ->).
    destruct (Hk _ _ _ HP Hd) as (P' & ? & ?). eauto 10.
Qed.

Lemma keeps_outputs_insert w w' q Q Q' :
  heap w !! q = Some Q → heap w' = <[q := Q']> (heap w) →
  (∀ d, batch_output Q = Some d → batch_output Q' = Some d) →
  keeps_outputs w w'.
Proof.
  intros HQ Hh HQ' p P d HP Hd. rewrite Hh.
  destruct (decide (q = p)) as [->|Hne].
  - rewrite list_lookup_insert_eq by by eapply lookup_lt_Some.
    simplify_eq. eauto.
  - rewrite list_lookup_insert_ne by done. eauto.
Qed.

Lemma exec_keeps_outputs ev w w' :
  Inv w → exec ev w = Some w' → keeps_outputs w w'.
Proof.
  intros HI Hex. destruct ev as [id_ x|q|q outs|q e|c]; cbn [exec] in Hex.
  - unfold _func_enter in Hex.
    destruct (get_parade_cases w) as [(q & Hq & Hg)|[Hnone Hg]];
      rewrite Hg in Hex; unfold _func_admit in Hex.
    + apply current_open_Some in Hq as (_ & Q & HQ & HsQ).
      rewrite HQ in Hex. cbn [mbind option_bind] in Hex.
      rewrite feed_open in Hex by done. injection Hex as <-.
      by eapply keeps_outputs_insert.
    + cbn [heap] in Hex. rewrite lookup_app_r in Hex by done.
      rewrite Nat.sub_diag in Hex. cbn [lookup list_lookup mbind option_bind] in Hex.
      rewrite feed_open in Hex by done. injection Hex as <-.
      intros p P d HP Hd. cbn [heap]. exists P. split; [|done].
      rewrite list_lookup_insert_ne
        by (intros <-; apply lookup_lt_Some in HP; lia).
      by apply lookup_app_l_Some.
  - unfold window_elapsed in Hex. destruct (windows w !! q) as [pc|]; [|done].
    destruct (heap w !! q) as [Q|] eqn:HQ; [|done]. cbn [mbind option_bind] in Hex.
    destruct pc; try done. injection Hex as <-.
    by eapply keeps_outputs_insert.
  - unfold window_resume in Hex.
    destruct (windows w !! q) as [pc|] eqn:Hpc; [|done].
    destruct (heap w !! q) as [Q|] eqn:HQ; [|done]. cbn [mbind option_bind] in Hex.
    destruct pc; try done. rewrite start_wait_resume_ok in Hex.
    injection Hex as <-.
    destruct (inv_window w HI _ _ _ HQ Hpc) as (_ & Hnone & _).
    eapply keeps_outputs_insert; [done..|]. intros d. by rewrite Hnone.
  - unfold window_resume in Hex. destruct (windows w !! q) as [pc|]; [|done].
    destruct (heap w !! q) as [Q|] eqn:HQ; [|done]. cbn [mbind option_bind] in Hex.
    destruct pc; try done. rewrite start_wait_resume_raise in Hex.
    injection Hex as <-. by eapply keeps_outputs_insert.
  - unfold _func_resume in Hex. destruct (callers w !! c) as [cl|]; [|done].
    cbn [mbind option_bind] in Hex. destruct (c_pc cl); try done.
    destruct (heap w !! c_parade cl) as [Q|]; [|done]. injection Hex as <-.
    intros p P d HP Hd. eauto.
Qed.

Lemma Delivered_exec ev w w' :
  Inv w → Delivered w → exec ev w = Some w' → Delivered w'.
Proof.
  intros HI HD Hex. pose proof (exec_keeps_outputs _ _ _ HI Hex) as Hk.
  assert (Forall (caller_ok w') (callers w)) as HD'.
  { eapply Forall_impl; [exact HD|]. intros cl. by apply caller_ok_mono. }
  clear HD. unfold Delivered.
  destruct ev as [id_ x|q|q outs|q e|c]; cbn [exec] in Hex.
  - unfold _func_enter in Hex. destruct (get_parade w) as [q w1] eqn:Hg.
    assert (callers w1 = callers w) as Hw1.
    { destruct (get_parade_cases w) as [(q' & _ & Hg')|[_ Hg']];
        rewrite Hg' in Hg; by injection Hg as <- <-. }
    destruct (get_parade_open w) as (Q & HQ & HsQ & _). rewrite Hg in HQ.
    cbn [fst snd] in HQ. unfold _func_admit in Hex. rewrite HQ in Hex.
    cbn [mbind option_bind] in Hex. rewrite feed_open in Hex by done.
    injection Hex as <-. cbn [callers] in *. rewrite Hw1.
    apply Forall_app. split; [done|]. by apply Forall_singleton.
  - unfold window_elapsed in Hex. destruct (windows w !! q) as [pc|]; [|done].
    destruct (heap w !! q) as [Q|]; [|done]. cbn [mbind option_bind] in Hex.
    destruct pc; try done. by injection Hex as <-.
  - unfold window_resume in Hex. destruct (windows w !! q) as [pc|]; [|done].
    destruct (heap w !! q) as [Q|] eqn:HQ; [|done]. cbn [mbind option_bind] in Hex.
    destruct pc; try done. rewrite start_wait_resume_ok in Hex.
    injection Hex as <-. cbn [callers heap] in *.
    unfold notify_all. apply Forall_fmap.
    eapply Forall_impl; [exact HD'|]. intros cl Hcl. unfold compose.
    destruct (c_pc cl) eqn:Hpc; [|by unfold caller_ok in *; rewrite Hpc in *..].
    destruct (decide (c_parade cl = q)) as [Heq|Hne];
      [|by unfold caller_ok; rewrite Hpc].
    unfold caller_ok. cbn [c_pc c_parade heap]. rewrite Heq.
    rewrite list_lookup_insert_eq by by eapply lookup_lt_Some. eauto.
  - unfold window_resume in Hex. destruct (windows w !! q) as [pc|]; [|done].
    destruct (heap w !! q) as [Q|]; [|done]. cbn [mbind option_bind] in Hex.
    destruct pc; try done. rewrite start_wait_resume_raise in Hex.
    by injection Hex as <-.
  - unfold _func_resume in Hex. destruct (callers w !! c) as [cl|] eqn:Hc; [|done].
    cbn [mbind option_bind] in Hex. destruct (c_pc cl) eqn:Hpc; try done.
    destruct (heap w !! c_parade cl) as [Q|] eqn:HQ; [|done].
    injection Hex as <-. cbn [callers heap] in *.
    apply Forall_insert; [done|].
    pose proof (Forall_lookup_1 _ _ _ _ HD' Hc) as Hcl.
    unfold caller_ok in Hcl |- *. rewrite Hpc in Hcl. cbn [c_pc c_parade c_id].
    destruct Hcl as (P & d & HP & Hd). cbn [heap] in HP.
    rewrite HQ in HP. injection HP as ->.
    exists P, d. split_and!; [done..|]. unfold batch_output_get. by rewrite Hd.
Qed.

Lemma Delivered_run evs w w' :
  Inv w → Delivered w → run evs w = Some w' → Delivered w'.
Proof.
  revert w. induction evs as [|ev evs IH]; intros w HI HD; cbn [run].
  - by intros [= <-].
  - destruct (exec ev w) as [w1|] eqn:Hex; [|done]. cbn [mbind option_bind].
    eauto using Inv_exec, Delivered_exec.
Qed.

(** X4. Under every schedule, a caller task that has finished returned
    normally, with the entry of its own token in the output mapping of the
    parade it was admitted to ([None] when the mapping has no such entry).
    No caller task ever ends with an exception. *)
Theorem returned_caller_got_its_entry (evs : list (event I O)) w c cl r :
  run evs World_init = Some w →
  callers w !! c = Some cl → c_pc cl = Returned r →
  ∃ P d, heap w !! c_parade cl = Some P ∧ batch_output P = Some d ∧
         r = Ok (od_get (c_id cl) d).
Proof.
  intros Hrun Hc Hpc.
  assert (Delivered w) as HD.
  { eapply Delivered_run; [apply Inv_init| |exact Hrun]. apply Forall_nil_2. }
  pose proof (Forall_lookup_1 _ _ _ _ HD Hc) as Hcl.
  unfold caller_ok in Hcl. by rewrite Hpc in Hcl.
Qed.
End Delivery.

Lemma returned_caller_got_its_entry_witness :
  ∃ (w : World nat nat) (cl : Caller nat) (r : res (option nat)),
    run [Submit "a" 1; Submit "b" 2; WindowElapsed 0; Submit "c" 3;
         CallReturns 0 [10]; Resume 1] World_init = Some w ∧
    callers w !! 1 = Some cl ∧ c_pc cl = Returned r ∧
    ∃ P d, heap w !! c_parade cl = Some P ∧ batch_output P = Some d ∧
           r = Ok (od_get (c_id cl) d).
Proof.
  eexists _, _, _. split; [vm_compute; reflexivity|].
  split; [vm_compute; reflexivity|]. split; [vm_compute; reflexivity|].
  refine (returned_caller_got_its_entry
    [Submit "a" 1; Submit "b" 2; WindowElapsed 0; Submit "c" 3;
     CallReturns 0 [10]; Resume 1] _ 1 _ _ _ _ _); vm_compute; reflexivity.
Defined.

Section Submissions.
Context {I O : Type}.
Implicit Types (w : World I O) (P : Parade I O) (p c : nat).

Lemma od_set_nonempty {V : Type} (k : string) (v : V) (d : list (string * V)) :
  od_set k v d ≠ [].
Proof. destruct d as [|[k' v'] d]; simpl; [done|]. by destruct (decide (k' = k)). Qed.

Lemma od_set_keys_incl {V : Type} (k k0 : string) (v : V) (d : list (string * V)) :
  k0 ∈ od_keys d → k0 ∈ od_keys (od_set k v d).
Proof.
  intros Hin. rewrite od_keys_set. destruct (decide (k ∈ od_keys d)); [done|].
  apply elem_of_app. by left.
Qed.

Lemma od_set_keys_new {V : Type} (k : string) (v : V) (d : list (string * V)) :
  k ∈ od_keys (od_set k v d).
Proof.
  rewrite od_keys_set. destruct (decide (k ∈ od_keys d)); [done|].
  apply elem_of_app. right. by apply list_elem_of_singleton.
Qed.

(** A submission that finds the current parade open is admitted to it and
    leaves it the open current parade. *)
Lemma submit_on_open w p id_ (x : I) :
  current_open w = Some p →
  ∃ w' P P',
    _func_enter id_ x w = Some w' ∧ current_open w' = Some p ∧
    callers w' = callers w ++ [mkCaller p id_ Waiting] ∧
    length (heap w') = length (heap w) ∧
    heap w !! p = Some P ∧ heap w' !! p = Some P' ∧
    batch_input P' = od_set id_ x (batch_input P).
Proof.
  intros Hopen. pose proof Hopen as (Hcur & P & HP & Hs)%current_open_Some.
  unfold _func_enter, get_parade. rewrite Hopen. unfold _func_admit.
  rewrite HP. cbn [mbind option_bind]. rewrite feed_open by done.
  eexists _, P, _. split; [done|]. cbn [heap callers].
  rewrite list_lookup_insert_eq by by eapply lookup_lt_Some.
  split_and!; try done.
  - apply current_open_Some. cbn [_current_parade heap]. split; [done|].
    rewrite list_lookup_insert_eq by by eapply lookup_lt_Some. eauto.
  - by rewrite length_insert.
Qed.

Lemma submits_on_open (adm : list (token * I)) : ∀ w p,
  current_open w = Some p →
  ∃ w' P P',
    run ((fun a => Submit a.1 a.2) <$> adm) w = Some w' ∧
    current_open w' = Some p ∧
    callers w' = callers w ++ waiting_on p adm ∧
    length (heap w') = length (heap w) ∧
    heap w !! p = Some P ∧ heap w' !! p = Some P' ∧
    (∀ k, k ∈ od_keys (batch_input P) → k ∈ od_keys (batch_input P')) ∧
    (∀ a, a ∈ adm → a.1 ∈ od_keys (batch_input P')).
Proof.
  induction adm as [|[id_ x] adm IH]; intros w p Hopen.
  - pose proof Hopen as (_ & P & HP & _)%current_open_Some.
    exists w, P, P. cbn. rewrite app_nil_r. split_and!; try done.
    intros a Ha. by apply elem_of_nil in Ha.
  - destruct (submit_on_open w p id_ x Hopen)
      as (w1 & P & P1 & Hen & Hopen1 & Hc1 & Hl1 & HP & HP1 & Hin1).
    destruct (IH w1 p Hopen1)
      as (w' & P1' & P' & Hrun & Hopen' & Hc' & Hl' & HP1' & HP' & Hmono & Hall).
    rewrite HP1 in HP1'. injection HP1' as <-.
    exists w', P, P'. rewrite fmap_cons. cbn [run exec fst snd]. rewrite Hen.
    cbn [mbind option_bind]. split_and!; try done.
    + rewrite Hc', Hc1. unfold waiting_on. rewrite fmap_cons, <- app_assoc. done.
    + congruence.
    + intros k Hk. apply Hmono. rewrite Hin1. by apply od_set_keys_incl.
    + intros a [->|Ha]%elem_of_cons; [|by apply Hall].
      apply Hmono. rewrite Hin1. apply od_set_keys_new.
Qed.

(** X5. Submissions that follow one another with no other task running in
    between are all admitted to one and the same parade, the one
    [get_parade] hands to the first of them: at most one parade is created
    for the whole run, all the tokens are keys of its input mapping, and it
    is still the open current parade afterwards. *)
Theorem submissions_share_a_parade
    (w : World I O) (id_ : token) (x : I) (adm : list (token * I)) :
  ∃ w' P,
    run ((fun a => Submit a.1 a.2) <$> (id_, x) :: adm) w = Some w' ∧
    current_open w' = Some (get_parade w).1 ∧
    callers w' = callers w ++ waiting_on (get_parade w).1 ((id_, x) :: adm) ∧
    length (heap w') = length (heap (get_parade w).2) ∧
    (length (heap w') ≤ S (length (heap w)))%nat ∧
    heap w' !! (get_parade w).1 = Some P ∧
    ∀ a, a ∈ (id_, x) :: adm → a.1 ∈ od_keys (batch_input P).
Proof.
  destruct (get_parade_open w) as (Q & HQ & HsQ & Hcur).
  destruct (get_parade w) as [p w1] eqn:Hg. cbn [fst snd] in *.
  assert (current_open w1 = Some p) as Hopen1 by (apply current_open_Some; eauto).
  assert (callers w1 = callers w ∧ (length (heap w1) ≤ S (length (heap w)))%nat)
    as [Hc1 Hl1].
  { destruct (get_parade_cases w) as [(q' & _ & Hg')|[_ Hg']];
      rewrite Hg' in Hg; injection Hg as <- <-; cbn [callers heap];
      rewrite ?length_app; cbn; split; (done || lia). }
  destruct (submits_on_open ((id_, x) :: adm) w1 p Hopen1)
    as (w' & P & P' & Hrun & Hopen' & Hc' & Hl' & _ & HP' & _ & Hall).
  exists w', P'.
  assert (run ((fun a => Submit a.1 a.2) <$> (id_, x) :: adm) w = Some w') as Hrun'.
  { rewrite fmap_cons in Hrun |- *. cbn [run exec fst snd] in Hrun |- *.
    unfold _func_enter in Hrun |- *. rewrite Hg.
    unfold get_parade in Hrun. by rewrite Hopen1 in Hrun. }
  split_and!; try done; [congruence|lia].
Qed.

(** One transition keeps every parade's input mapping non-empty. *)
Lemma nonempty_exec ev w w' :
  (∀ p P, heap w !! p = Some P → batch_input P ≠ []) →
  exec ev w = Some w' →
  ∀ p P, heap w' !! p = Some P → batch_input P ≠ [].
Proof.
  intros Hne Hex p P HP.
  destruct ev as [id_ x|q|q outs|q e|c]; cbn [exec] in Hex.
  - unfold _func_enter in Hex. destruct (get_parade w) as [q w1] eqn:Hg.
    destruct (get_parade_open w) as (Q & HQ & HsQ & _). rewrite Hg in HQ.
    cbn [fst snd] in HQ. unfold _func_admit in Hex. rewrite HQ in Hex.
    cbn [mbind option_bind] in Hex. rewrite feed_open in Hex by done.
    injection Hex as <-. cbn [heap] in HP.
    apply list_lookup_insert_Some in HP as [(-> & <- & _)|(Hneq & HP)].
    + cbn. apply od_set_nonempty.
    + destruct (get_parade_cases w) as [(q' & _ & Hg')|[_ Hg']];
        rewrite Hg' in Hg; injection Hg as <- <-; [by eapply Hne|].
      cbn [heap] in HP. apply lookup_app_Some in HP as [HP|[Hge HP]];
        [by eapply Hne|].
      destruct (p - length (heap w)) as [|k] eqn:Hk; [|done].
      exfalso. apply Hneq. lia.
  - unfold window_elapsed in Hex. destruct (windows w !! q) as [pc|]; [|done].
    destruct (heap w !! q) as [Q|] eqn:HQ; [|done]. cbn [mbind option_bind] in Hex.
    destruct pc; try done. injection Hex as <-. cbn [heap] in HP.
    apply list_lookup_insert_Some in HP as [(-> & <- & _)|(Hneq & HP)];
      cbn [set_status batch_input]; by eapply Hne.
  - unfold window_resume in Hex. destruct (windows w !! q) as [pc|]; [|done].
    destruct (heap w !! q) as [Q|] eqn:HQ; [|done]. cbn [mbind option_bind] in Hex.
    destruct pc; try done. rewrite start_wait_resume_ok in Hex.
    injection Hex as <-. cbn [heap] in HP.
    apply list_lookup_insert_Some in HP as [(-> & <- & _)|(Hneq & HP)];
      cbn [set_status batch_input]; by eapply Hne.
  - unfold window_resume in Hex. destruct (windows w !! q) as [pc|]; [|done].
    destruct (heap w !! q) as [Q|] eqn:HQ; [|done]. cbn [mbind option_bind] in Hex.
    destruct pc; try done. rewrite start_wait_resume_raise in Hex.
    injection Hex as <-. cbn [heap] in HP.
    apply list_lookup_insert_Some in HP as [(-> & <- & _)|(Hneq & HP)];
      cbn [set_status batch_input]; by eapply Hne.
  - unfold _func_resume in Hex. destruct (callers w !! c) as [cl|]; [|done].
    cbn [mbind option_bind] in Hex. destruct (c_pc cl); try done.
    destruct (heap w !! c_parade cl) as [Q|]; [|done]. injection Hex as <-.
    by eapply Hne.
Qed.

Lemma nonempty_run evs w w' :
  (∀ p P, heap w !! p = Some P → batch_input P ≠ []) →
  run evs w = Some w' →
  ∀ p P, heap w' !! p = Some P → batch_input P ≠ [].
Proof.
  revert w. induction evs as [|ev evs IH]; intros w Hne; cbn [run].
  - by intros [= <-].
  - destruct (exec ev w) as [w1|] eqn:Hex; [|done]. cbn [mbind option_bind].
    eauto using nonempty_exec.
Qed.

(** X6. The dispatcher never holds an empty parade and never enters [call]
    with no input: in every state the loop can reach, each parade has at
    least one admitted input, and the arguments of every running [call] are
    a non-empty list. *)
Theorem no_empty_batch (evs : list (event I O)) w :
  run evs World_init = Some w →
  (∀ p P, heap w !! p = Some P → batch_input P ≠ []) ∧
  (∀ p args, windows w !! p = Some (Calling args) → args ≠ []).
Proof.
  intros Hrun.
  assert (∀ p P, heap w !! p = Some P → batch_input P ≠ []) as Hne.
  { eapply nonempty_run; [|exact Hrun]. intros p P HP. cbn [World_init heap] in HP.
    by rewrite lookup_nil in HP. }
  split; [done|]. intros p args Hp.
  assert (Inv w) as HI by (eapply Inv_run; [apply Inv_init|done]).
  assert (p < length (heap w)) as Hlt.
  { rewrite <- (inv_len w HI). by eapply lookup_lt_Some. }
  apply lookup_lt_is_Some in Hlt as [P HP].
  destruct (inv_window w HI _ _ _ HP Hp) as (_ & _ & -> & _).
  pose proof (Hne _ _ HP) as HneP. unfold od_values.
  destruct (batch_input P); [done|]. by rewrite fmap_cons.
Qed.
End Submissions.

Lemma no_empty_batch_witness :
  ∃ w : World nat nat,
    run [Submit "a" 1; WindowElapsed 0; Submit "b" 2; Submit "c" 3;
         WindowElapsed 1] World_init = Some w ∧
    (∀ p P, heap w !! p = Some P → batch_input P ≠ []) ∧
    (∀ p args, windows w !! p = Some (Calling args) → args ≠ []).
Proof.
  eexists. split; [vm_compute; reflexivity|].
  refine (no_empty_batch
    [Submit "a" 1; WindowElapsed 0; Submit "b" 2; Submit "c" 3; WindowElapsed 1]
    _ _); vm_compute; reflexivity.
Defined.

Section Mappings.
Context {I O : Type}.
Implicit Types (w : World I O) (P : Parade I O) (p c : nat).

(** The two mappings of a parade fit: the tokens of the inputs are pairwise
    distinct, and the outputs, once there, are paired with them by
    position. *)
Definition mappings_ok (P : Parade I O) : Prop :=
  NoDup (od_keys (batch_input P)) ∧
  ∀ d, batch_output P = Some d →
       ∃ outputs, d = zip (od_keys (batch_input P)) outputs.

Lemma mappings_exec ev w w' :
  Inv w →
  (∀ p P, heap w !! p = Some P → mappings_ok P) →
  exec ev w = Some w' →
  ∀ p P, heap w' !! p = Some P → mappings_ok P.
Proof.
  intros HI Hok Hex p P HP.
  destruct ev as [id_ x|q|q outs|q e|c]; cbn [exec] in Hex.
  - unfold _func_enter in Hex. destruct (get_parade w) as [q w1] eqn:Hg.
    destruct (get_parade_open w) as (Q & HQ & HsQ & _). rewrite Hg in HQ.
    cbn [fst snd] in HQ. unfold _func_admit in Hex. rewrite HQ in Hex.
    cbn [mbind option_bind] in Hex. rewrite feed_open in Hex by done.
    injection Hex as <-. cbn [heap] in HP.
    assert (mappings_ok Q ∧ batch_output Q = None) as [[HndQ _] HoutQ].
    { destruct (get_parade_cases w) as [(q' & Hq' & Hg')|[_ Hg']];
        rewrite Hg' in Hg; injection Hg as <- <-.
      - split; [by eapply Hok|].
        destruct (Inv_window_of w _ Q HI HQ) as (pc & _ & Hpc).
        destruct pc; cbn in Hpc; destruct_and?; congruence.
      - cbn [heap] in HQ. rewrite lookup_app_r in HQ by done.
        rewrite Nat.sub_diag in HQ. injection HQ as <-.
        split; [|done]. split; [apply NoDup_nil_2|done]. }
    apply list_lookup_insert_Some in HP as [(-> & <- & _)|(Hneq & HP)].
    + split; cbn [set_batch_input batch_input batch_output].
      * by apply od_set_NoDup.
      * intros d. by rewrite HoutQ.
    + destruct (get_parade_cases w) as [(q' & _ & Hg')|[_ Hg']];
        rewrite Hg' in Hg; injection Hg as <- <-; [by eapply Hok|].
      cbn [heap] in HP. apply lookup_app_Some in HP as [HP|[Hge HP]];
        [by eapply Hok|].
      destruct (p - length (heap w)) as [|k] eqn:Hk; [|done].
      exfalso. apply Hneq. lia.
  - unfold window_elapsed in Hex. destruct (windows w !! q) as [pc|]; [|done].
    destruct (heap w !! q) as [Q|] eqn:HQ; [|done]. cbn [mbind option_bind] in Hex.
    destruct pc; try done. injection Hex as <-. cbn [heap] in HP.
    apply list_lookup_insert_Some in HP as [(-> & <- & _)|(Hneq & HP)];
      [|by eapply Hok]. exact (Hok _ _ HQ).
  - unfold window_resume in Hex. destruct (windows w !! q) as [pc|]; [|done].
    destruct (heap w !! q) as [Q|] eqn:HQ; [|done]. cbn [mbind option_bind] in Hex.
    destruct pc; try done. rewrite start_wait_resume_ok in Hex.
    injection Hex as <-. cbn [heap] in HP.
    apply list_lookup_insert_Some in HP as [(-> & <- & _)|(Hneq & HP)];
      [|by eapply Hok].
    destruct (Hok _ _ HQ) as [Hnd _]. split; cbn [batch_input batch_output]; [done|].
    intros d [= <-]. exists outs. by apply od_of_pairs_NoDup, NoDup_zip_keys.
  - unfold window_resume in Hex. destruct (windows w !! q) as [pc|]; [|done].
    destruct (heap w !! q) as [Q|] eqn:HQ; [|done]. cbn [mbind option_bind] in Hex.
    destruct pc; try done. rewrite start_wait_resume_raise in Hex.
    injection Hex as <-. cbn [heap] in HP.
    apply list_lookup_insert_Some in HP as [(-> & <- & _)|(Hneq & HP)];
      [|by eapply Hok]. exact (Hok _ _ HQ).
  - unfold _func_resume in Hex. destruct (callers w !! c) as [cl|]; [|done].
    cbn [mbind option_bind] in Hex. destruct (c_pc cl); try done.
    destruct (heap w !! c_parade cl) as [Q|]; [|done]. injection Hex as <-.
    by eapply Hok.
Qed.

Lemma mappings_run evs w w' :
  Inv w →
  (∀ p P, heap w !! p = Some P → mappings_ok P) →
  run evs w = Some w' →
  ∀ p P, heap w' !! p = Some P → mappings_ok P.
Proof.
  revert w. induction evs as [|ev evs IH]; intros w HI Hok; cbn [run].
  - by intros [= <-].
  - destruct (exec ev w) as [w1|] eqn:Hex; [|done]. cbn [mbind option_bind].
    eauto using Inv_exec, mappings_exec.
Qed.

(** X7. In every state the loop can reach, the tokens of a parade's input
    mapping are pairwise distinct, and its output mapping, once set, pairs
    those tokens with outputs by position: it is never longer than the
    input mapping and each of its tokens is a token of the inputs. *)
Theorem output_mapping_is_positional (evs : list (event I O)) w p P d :
  run evs World_init = Some w → heap w !! p = Some P →
  batch_output P = Some d →
  NoDup (od_keys (batch_input P)) ∧
  (∃ outputs, d = zip (od_keys (batch_input P)) outputs) ∧
  (length d ≤ length (batch_input P))%nat ∧
  (∀ k, k ∈ od_keys d → k ∈ od_keys (batch_input P)).
Proof.
  intros Hrun HP Hd.
  assert (mappings_ok P) as [Hnd Hzip].
  { eapply (mappings_run evs World_init w); [apply Inv_init| |done..].
    intros q Q HQ. cbn [World_init heap] in HQ. by rewrite lookup_nil in HQ. }
  destruct (Hzip _ Hd) as [outputs ->]. split_and!; [done|eauto| |].
  - rewrite length_zip. unfold od_keys. rewrite length_fmap. lia.
  - intros k. apply elem_of_zip_keys.
Qed.
End Mappings.

Lemma output_mapping_is_positional_witness :
  ∃ (w : World nat nat) (P : Parade nat nat) (d : list (token * nat)),
    run [Submit "a" 1; Submit "b" 2; Submit "a" 3; WindowElapsed 0;
         CallReturns 0 [10; 20; 30]] World_init = Some w ∧
    heap w !! 0 = Some P ∧ batch_output P = Some d ∧
    NoDup (od_keys (batch_input P)) ∧
    (∃ outputs, d = zip (od_keys (batch_input P)) outputs) ∧
    (length d ≤ length (batch_input P))%nat ∧
    (∀ k, k ∈ od_keys d → k ∈ od_keys (batch_input P)).
Proof.
  eexists _, _, _. split; [vm_compute; reflexivity|].
  split; [vm_compute; reflexivity|]. split; [vm_compute; reflexivity|].
  refine (output_mapping_is_positional
    [Submit "a" 1; Submit "b" 2; Submit "a" 3; WindowElapsed 0;
     CallReturns 0 [10; 20; 30]] _ 0 _ _ _ _ _); vm_compute; reflexivity.
Defined.

(** X8. [Parade.feed] on an open parade touches the entry of its token
    only: every other token keeps its payload, and the mapping grows by one
    entry exactly when the token is new (a token already there has its
    payload replaced and the earlier payload is lost). *)
Theorem feed_touches_one_entry {I O : Type}
    (id_ : token) (data : I) (p : Parade I O) :
  status_of p = STATUS_OPEN →
  ∃ q, feed id_ data p = Ok (q, true) ∧
       (∀ k, k ≠ id_ → od_get k (batch_input q) = od_get k (batch_input p)) ∧
       length (batch_input q)
       = (if decide (id_ ∈ od_keys (batch_input p))
          then length (batch_input p) else S (length (batch_input p))).
Proof.
  intros Hs. rewrite feed_open by done. eexists. split; [done|].
  cbn [set_batch_input batch_input]. split.
  - intros k Hk. by apply od_get_set_ne.
  - pose proof (od_keys_set id_ data (batch_input p)) as Hkeys.
    apply (f_equal length) in Hkeys. unfold od_keys in *.
    rewrite length_fmap in Hkeys. rewrite Hkeys.
    destruct (decide (id_ ∈ (batch_input p).*1)).
    + by rewrite length_fmap.
    + rewrite length_app, length_fmap. cbn. lia.
Qed.

Lemma feed_touches_one_entry_witness :
  let p : Parade nat nat :=
    {| batch_input := [("a", 1); ("b", 2)]; batch_output := None;
       status_of := STATUS_OPEN |} in
  status_of p = STATUS_OPEN ∧
  ∃ q, feed "a" 7 p = Ok (q, true) ∧
       (∀ k, k ≠ "a" → od_get k (batch_input q) = od_get k (batch_input p)) ∧
       length (batch_input q)
       = (if decide ("a" ∈ od_keys (batch_input p))
          then length (batch_input p) else S (length (batch_input p))).
Proof.
  intros p. split; [reflexivity|].
  exact (feed_touches_one_entry "a" 7 p eq_refl).
Defined.

(** * Further properties of MarshalService *)

(** [MarshalService.set_target_port] *)
Definition set_target_port (port : Z) (s : MarshalService) : MarshalService :=
  {| target_host := target_host s;
     target_port := Some port;
     batch_handlers := batch_handlers s;
     dispatchers := dispatchers s |}.

(** The calls that configure a service. *)
Inductive service_op :=
| AddBatchHandler (api_name : string) (max_latency : Z)
| SetTargetPort (port : Z).

Definition apply_op (s : MarshalService) (op : service_op) : MarshalService :=
  match op with
  | AddBatchHandler api_name max_latency =>
      add_batch_handler api_name max_latency s
  | SetTargetPort port => set_target_port port s
  end.

(** A service configured by a sequence of calls, in order. *)
Definition apply_ops (ops : list service_op) (s : MarshalService)
  : MarshalService := foldl apply_op s ops.

(** The latency given by the first [add_batch_handler] call for a name. *)
Fixpoint first_latency (api_name : string) (ops : list service_op) : option Z :=
  match ops with
  | [] => None
  | AddBatchHandler n l :: ops' =>
      if decide (n = api_name) then Some l else first_latency api_name ops'
  | SetTargetPort _ :: ops' => first_latency api_name ops'
  end.

(** Handlers and dispatchers correspond one to one. *)
Definition registry_ok (s : MarshalService) : Prop :=
  (∀ n d, batch_handlers s !! n = Some d →
          ∃ disp, dispatchers s !! d = Some disp ∧ callback_api_name disp = n) ∧
  (∀ d disp, dispatchers s !! d = Some disp →
             batch_handlers s !! callback_api_name disp = Some d).

Lemma registry_ok_init host port : registry_ok (MarshalService_init host port).
Proof.
  split; cbn.
  - intros n d Hn. by rewrite lookup_empty in Hn.
  - intros d disp Hd. by rewrite lookup_nil in Hd.
Qed.

Lemma registry_ok_add n l s :
  registry_ok s → registry_ok (add_batch_handler n l s).
Proof.
  intros [H1 H2]. unfold add_batch_handler.
  destruct (batch_handlers s !! n) as [d0|] eqn:Hn; [done|].
  split; cbn [batch_handlers dispatchers].
  - intros n' d Hn'. destruct (decide (n = n')) as [<-|Hne].
    + rewrite lookup_insert_eq in Hn'. injection Hn' as <-.
      eexists. split; [by apply list_lookup_middle|done].
    + rewrite lookup_insert_ne in Hn' by done.
      destruct (H1 _ _ Hn') as (disp & Hd & Hname). exists disp.
      split; [|done]. by apply lookup_app_l_Some.
  - intros d disp [Hd|[Hge Hd]]%lookup_app_Some.
    + pose proof (H2 _ _ Hd) as Hb. rewrite lookup_insert_ne; [done|].
      intros Heq. rewrite <- Heq in Hb. congruence.
    + destruct (d - length (dispatchers s)) as [|k] eqn:Hk; [|done].
      injection Hd as <-. cbn. rewrite lookup_insert_eq. f_equal. lia.
Qed.

Lemma registry_ok_ops ops : ∀ s, registry_ok s → registry_ok (apply_ops ops s).
Proof.
  unfold apply_ops. induction ops as [|[n l|port] ops IH]; intros s Hs; cbn [foldl].
  - done.
  - by apply IH, registry_ok_add.
  - by apply IH.
Qed.

(** X9. However a service is configured, its handlers and the dispatchers
    constructed for it correspond one to one: every handler is the
    dispatcher built for exactly that name, two names never share a
    dispatcher, and there are as many dispatchers as registered names. *)
Theorem registry_is_one_to_one
    (ops : list service_op) (host : string) (port : option Z) :
  let s := apply_ops ops (MarshalService_init host port) in
  (∀ n d, batch_handlers s !! n = Some d →
          ∃ disp, dispatchers s !! d = Some disp ∧ callback_api_name disp = n) ∧
  (∀ n1 n2 d, batch_handlers s !! n1 = Some d →
              batch_handlers s !! n2 = Some d → n1 = n2) ∧
  (∀ d, (d < length (dispatchers s))%nat →
        ∃ n, batch_handlers s !! n = Some d).
Proof.
  intros s. destruct (registry_ok_ops ops _ (registry_ok_init host port))
    as [H1 H2]. fold s in H1, H2. split_and!.
  - done.
  - intros n1 n2 d Hn1 Hn2.
    destruct (H1 _ _ Hn1) as (disp1 & Hd1 & <-).
    destruct (H1 _ _ Hn2) as (disp2 & Hd2 & <-). congruence.
  - intros d [disp Hd]%lookup_lt_is_Some. eauto.
Qed.

(** Configuration calls keep what is registered: the handler of a
    registered name, and every dispatcher, stay as and where they are. *)
Lemma apply_ops_keeps ops : ∀ s,
  (∀ n d, batch_handlers s !! n = Some d →
          batch_handlers (apply_ops ops s) !! n = Some d) ∧
  (∀ d disp, dispatchers s !! d = Some disp →
             dispatchers (apply_ops ops s) !! d = Some disp).
Proof.
  unfold apply_ops. induction ops as [|[n l|port] ops IH]; intros s; cbn [foldl].
  - done.
  - destruct (IH (add_batch_handler n l s)) as [IH1 IH2]. split.
    + intros n' d Hn'. apply IH1. unfold add_batch_handler.
      destruct (batch_handlers s !! n) eqn:Hn; [done|]. cbn.
      rewrite lookup_insert_ne; [done|]. intros <-. congruence.
    + intros d disp Hd. apply IH2. unfold add_batch_handler.
      destruct (batch_handlers s !! n); [done|]. cbn.
      by apply lookup_app_l_Some.
  - destruct (IH (set_target_port port s)) as [IH1 IH2]. split.
    + intros n' d Hn'. by apply IH1.
    + intros d disp Hd. by apply IH2.
Qed.

Lemma first_latency_ops ops n : ∀ s,
  batch_handlers s !! n = None →
  match first_latency n ops with
  | Some l =>
      ∃ d, batch_handlers (apply_ops ops s) !! n = Some d ∧
           dispatchers (apply_ops ops s) !! d
           = Some {| interval := l; callback_api_name := n |}
  | None => batch_handlers (apply_ops ops s) !! n = None
  end.
Proof.
  induction ops as [|[n' l|port] ops IH]; intros s Hn; cbn [first_latency].
  - done.
  - destruct (decide (n' = n)) as [->|Hne].
    + destruct (apply_ops_keeps ops (add_batch_handler n l s)) as [K1 K2].
      exists (length (dispatchers s)). split.
      * apply K1. unfold add_batch_handler. rewrite Hn. cbn.
        apply lookup_insert_eq.
      * apply K2. unfold add_batch_handler. rewrite Hn. cbn.
        by apply list_lookup_middle.
    + apply (IH (add_batch_handler n' l s)). unfold add_batch_handler.
      destruct (batch_handlers s !! n'); [done|]. cbn.
      by rewrite lookup_insert_ne.
  - by apply (IH (set_target_port port s)).
Qed.

Lemma first_registration_wins_aux
    (ops : list service_op) (host : string) (port : option Z) (n : string) :
  match first_latency n ops with
  | Some l =>
      ∃ d, batch_handlers (apply_ops ops (MarshalService_init host port)) !! n
           = Some d ∧
           dispatchers (apply_ops ops (MarshalService_init host port)) !! d
           = Some {| interval := l; callback_api_name := n |}
  | None =>
      batch_handlers (apply_ops ops (MarshalService_init host port)) !! n = None
  end.
Proof. apply first_latency_ops. cbn. apply lookup_empty. Qed.

(** X10. For a service configured by any sequence of calls, the handler of
    a name is decided by the first [add_batch_handler] call for it: its
    dispatcher has the latency given there, whatever later calls for the
    same or other names give, and a name no call registered has no
    handler. *)
Theorem first_registration_wins
    (ops : list service_op) (host : string) (port : option Z)
    (api_name : string) :
  let s := apply_ops ops (MarshalService_init host port) in
  match first_latency api_name ops with
  | Some l =>
      ∃ d, batch_handlers s !! api_name = Some d ∧
           dispatchers s !! d
           = Some {| interval := l; callback_api_name := api_name |}
  | None => batch_handlers s !! api_name = None
  end.
Proof. intros s. apply first_registration_wins_aux. Qed.



Section header_merge.
Context {V : Type}.
Implicit Types (d l : list (string * V)) (k : string).

Lemma od_set_keys_prefix k (v : V) d : od_keys d `prefix_of` od_keys (od_set k v d).
Proof.
  rewrite od_keys_set. destruct (decide (k ∈ od_keys d)); [done|].
  by apply prefix_app_r.
Qed.

(** [d.update(l)] keeps the keys of [d], in their order, before any new one. *)
Lemma od_update_keys_prefix l : ∀ d, od_keys d `prefix_of` od_keys (od_update d l).
Proof.
  unfold od_update. induction l as [|[k v] l IH]; intros d; cbn [foldl fst snd].
  - done.
  - etrans; [apply (od_set_keys_prefix k v)|apply IH].
Qed.

Lemma od_get_app k d1 d2 :
  od_get k (d1 ++ d2)
  = match od_get k d1 with Some v => Some v | None => od_get k d2 end.
Proof.
  induction d1 as [|[k' v'] d1 IH]; simpl; [done|].
  by destruct (decide (k' = k)).
Qed.

(** After [d.update(l)], a key holds the value of its last entry in [l],
    and what it held in [d] when [l] has no entry for it. *)
Lemma od_get_update k l : ∀ d,
  od_get k (od_update d l)
  = match od_get k (reverse l) with Some v => Some v | None => od_get k d end.
Proof.
  unfold od_update. induction l as [|[k' v'] l IH]; intros d; cbn [foldl fst snd].
  - done.
  - rewrite IH, reverse_cons, od_get_app.
    destruct (od_get k (reverse l)); [done|]. simpl.
    destruct (decide (k' = k)) as [->|Hne].
    + apply od_get_set_eq.
    + by apply od_get_set_ne.
Qed.
End header_merge.

(** X12. The merged call of a batch is posted to the URL of its endpoint
    with a header set made of the marshal flag first, then the tracing
    headers of the span: the flag is always there, with value [true]
    unless the span yields a header of that very name, and every other
    name has the span's (last) value. *)
Theorem merged_call_is_flagged
    (flag : string) (make_http_headers : string → list (string * string))
    (merged_post :
       string → list (string * string) → list Request → res (option (list Output)))
    (s : MarshalService) (api_name : string) (requests : list Request) :
  let tracing := make_http_headers ("merged " +:+ api_name) in
  let headers := od_update [(flag, "true")] tracing in
  batch_callback flag make_http_headers merged_post s api_name requests
  = (resps ← merged_post (api_url s api_name) headers requests;
     match resps with
     | None => Ok (replicate (length requests) HTTPInternalServerError)
     | Some resps => Ok resps
     end) ∧
  od_keys headers !! 0 = Some flag ∧
  od_get flag headers = Some (default "true" (od_get flag (reverse tracing))) ∧
  (∀ k, k ≠ flag → od_get k headers = od_get k (reverse tracing)).
Proof.
  intros tracing headers. split_and!.
  - done.
  - destruct (od_update_keys_prefix tracing [(flag, "true")]) as [k Hk].
    fold headers in Hk. by rewrite Hk.
  - unfold headers. rewrite od_get_update.
    destruct (od_get flag (reverse tracing)); [done|].
    cbn. by rewrite decide_True.
  - intros k Hk. unfold headers. rewrite od_get_update.
    destruct (od_get k (reverse tracing)); [done|].
    cbn. by rewrite decide_False.
Qed.

(** X13. When the merged reply cannot be split ([split_aio_responses]
    yields [None]), the batch callback answers with one
    [HTTPInternalServerError] per request, so that every token admitted to
    the parade is paired with [HTTPInternalServerError]: each caller of the
    batch gets the server error, none gets [None]. *)
Theorem unsplittable_reply_fails_every_caller
    (flag : string) (make_http_headers : string → list (string * string))
    (merged_post :
       string → list (string * string) → list Request → res (option (list Output)))
    (s : MarshalService) (api_name : string) (adm : list (token * Request)) :
  NoDup adm.*1 →
  merged_post (api_url s api_name)
    (od_update [(flag, "true")] (make_http_headers ("merged " +:+ api_name)))
    adm.*2 = Ok None →
  ∃ (p : Parade Request Output) (outputs : list Output),
    feed_all adm Parade_init = Ok p ∧
    batch_callback flag make_http_headers merged_post s api_name
      (start_wait_elapsed p).2 = Ok outputs ∧
    length outputs = length adm ∧
    ∀ i id_, adm.*1 !! i = Some id_ →
      batch_output_get id_
        (start_wait_resume (Ok outputs) (start_wait_elapsed p).1).1
      = Ok (Some HTTPInternalServerError).
Proof.
  intros Hnd Hpost.
  exists (set_batch_input adm Parade_init),
         (replicate (length adm) HTTPInternalServerError).
  split; [by apply (feed_all_fresh adm Parade_init)|].
  cbn [start_wait_elapsed fst snd set_status set_batch_input batch_input].
  split_and!.
  - rewrite batch_callback_passes_on. unfold od_values. rewrite Hpost.
    by rewrite length_fmap.
  - apply length_replicate.
  - intros i id_ Hi.
    refine (eq_trans
              (batch_output_get_positional
                 (replicate (length adm) HTTPInternalServerError)
                 (start_wait_elapsed (set_batch_input adm Parade_init)).1
                 i id_ Hnd Hi) _).
    do 2 f_equal. apply lookup_replicate_2.
    apply lookup_lt_Some in Hi. unfold od_keys in Hi.
    by rewrite length_fmap in Hi.
Qed.

Lemma unsplittable_reply_fails_every_caller_witness :
  let r1 := {| match_info_name := "predict"; req_headers := []; req_data := "1" |} in
  let r2 := {| match_info_name := "predict"; req_headers := []; req_data := "2" |} in
  let s := MarshalService_init "localhost" (Some 5000%Z) in
  let post := fun (_ : string) (_ : list (string * string)) (_ : list Request) =>
                @Ok (option (list Output)) None in
  NoDup [("t1", r1); ("t2", r2)].*1 ∧
  post (api_url s "predict")
    (od_update [("flag", "true")] ((fun _ => []) ("merged " +:+ "predict")))
    [("t1", r1); ("t2", r2)].*2 = Ok None ∧
  ∃ (p : Parade Request Output) (outputs : list Output),
    feed_all [("t1", r1); ("t2", r2)] Parade_init = Ok p ∧
    batch_callback "flag" (fun _ => []) post s "predict"
      (start_wait_elapsed p).2 = Ok outputs ∧
    length outputs = length [("t1", r1); ("t2", r2)] ∧
    ∀ i id_, [("t1", r1); ("t2", r2)].*1 !! i = Some id_ →
      batch_output_get id_
        (start_wait_resume (Ok outputs) (start_wait_elapsed p).1).1
      = Ok (Some HTTPInternalServerError).
Proof.
  intros r1 r2 s post.
  assert (NoDup [("t1", r1); ("t2", r2)].*1) as Hnd
    by (apply (bool_decide_unpack _); vm_compute; exact I).
  split; [exact Hnd|]. split; [reflexivity|].
  exact (unsplittable_reply_fails_every_caller "flag" (fun _ => []) post s
           "predict" [("t1", r1); ("t2", r2)] Hnd eq_refl).
Defined.

(** * Further properties of TensorflowTensorHandler *)

Section batch_loops.
Variable tensor : Type.
Variable pyslice : Type.
Variable bytes_decode : list Byte.byte → option string.
Variable json_loads : string → option json.
Variable decode_b64_if_needed : json → res json.
Variable concat_list : list (option (list json)) → res (list json * list pyslice).
Variable tf_constant : list json → res tensor.
Variable func : tensor → res tensor.
Variable decode_tf_if_needed : tensor → res json.
Variable getitem : list json → pyslice → res json.
Variable api_func_result_to_json : json → res string.

Local Open Scope nat_scope.

Local Abbreviation try_body_ :=
  (try_body bytes_decode json_loads decode_b64_if_needed).
Local Abbreviation decode_loop_ :=
  (decode_loop bytes_decode json_loads decode_b64_if_needed).
Local Abbreviation handle_batch_request_ :=
  (handle_batch_request tensor pyslice bytes_decode json_loads
     decode_b64_if_needed concat_list tf_constant func decode_tf_if_needed
     getitem api_func_result_to_json).

(** X14. The first loop of [handle_batch_request] lets no exception of a
    request through as it is: if it raises, then some request's [try] body
    raised (whatever the exception: bad UTF-8, bad JSON, a JSON value that
    is no object, a failing base64 conversion), and what the loop raises is
    [AttributeError]. *)
Theorem first_loop_raises_attribute_error
    (requests : list (list Byte.byte)) (i : nat)
    (st : list (option (list json)) * list Response) (e : exn) :
  decode_loop_ i requests st = Raise e →
  e = AttributeError ∧
  ∃ data e0, data ∈ requests ∧ try_body_ data = Raise e0.
Proof.
  revert i st. induction requests as [|d requests IH]; intros i st; cbn [decode_loop].
  - done.
  - destruct (try_body_ d) as [it|e0] eqn:Hd.
    + intros Hloop.
      assert (∃ st', decode_loop_ (S i) requests st' = Raise e) as [st' Hst'].
      { destruct it; cbn [mbind res_bind] in Hloop; eauto. }
      destruct (IH _ _ Hst') as (-> & data & e1 & Hin & Hraise).
      split; [done|]. exists data, e1. split; [|done].
      apply elem_of_cons. by right.
    + rewrite except_clause_raises. cbn [mbind res_bind]. intros [= <-].
      split; [done|]. exists d, e0. split; [|done]. apply elem_of_cons. by left.
Qed.

(** What the first loop leaves at the index of each request. *)
Lemma decode_loop_positions (requests : list (list Byte.byte)) :
  ∀ i st st',
  decode_loop_ i requests st = Ok st' →
  i + length requests ≤ length st.1 →
  i + length requests ≤ length st.2 →
  length st'.1 = length st.1 ∧ length st'.2 = length st.2 ∧
  (∀ j, j < i → st'.1 !! j = st.1 !! j ∧ st'.2 !! j = st.2 !! j) ∧
  ∀ j data, requests !! j = Some data →
    match try_body_ data with
    | Ok (SetInstances l) =>
        st'.1 !! (i + j) = Some (Some l) ∧ st'.2 !! (i + j) = st.2 !! (i + j)
    | Ok (SetResponse r) =>
        st'.1 !! (i + j) = st.1 !! (i + j) ∧ st'.2 !! (i + j) = Some r
    | Ok Skip =>
        st'.1 !! (i + j) = st.1 !! (i + j) ∧ st'.2 !! (i + j) = st.2 !! (i + j)
    | Raise _ => False
    end.
Proof.
  induction requests as [|d requests IH]; intros i st st'; cbn [decode_loop].
  - intros [= <-] _ _. split_and!; try done;
      intros j data Hj; by rewrite lookup_nil in Hj.
  - cbn [length]. intros Hloop Hl1 Hl2.
    destruct (try_body_ d) as [it|e0] eqn:Hd;
      [|by rewrite except_clause_raises in Hloop].
    set (st1 := match it with
                | SetInstances l => (<[i := Some l]> st.1, st.2)
                | SetResponse r => (st.1, <[i := r]> st.2)
                | Skip => st
                end).
    assert (decode_loop_ (S i) requests st1 = Ok st') as Hloop1
      by (destruct it; exact Hloop).
    assert (length st1.1 = length st.1 ∧ length st1.2 = length st.2) as [L1 L2]
      by (destruct it; cbn; rewrite ?length_insert; done).
    destruct (IH _ _ _ Hloop1) as (IL1 & IL2 & Ilow & Iall); [lia..|].
    split_and!; [congruence|congruence| |].
    + intros j Hj. destruct (Ilow j) as [E1 E2]; [lia|]. rewrite E1, E2.
      destruct it; cbn; rewrite ?list_lookup_insert_ne by lia; done.
    + intros [|j] data Hj.
      * cbn in Hj. injection Hj as <-. rewrite Hd, Nat.add_0_r.
        destruct (Ilow i) as [E1 E2]; [lia|]. rewrite E1, E2.
        destruct it; cbn; rewrite ?list_lookup_insert_eq by lia; done.
      * cbn in Hj. specialize (Iall j data Hj).
        replace (i + S j) with (S i + j) by lia.
        destruct (try_body_ data) as [[l|r|]|]; try done;
          destruct Iall as [E1 E2]; rewrite E1, E2;
          destruct it; cbn; rewrite ?list_lookup_insert_ne by lia; done.
Qed.

(** X15. When the first loop of [handle_batch_request] completes, it has
    handled each request at the request's own index and no other: the
    instances of request [j] (wrapped in a list when they are not one) sit
    at [instances_list[j]], a request in column format has the 501
    response at [responses[j]], and everything else is as initialised
    ([None] and the Bad Input response). *)
Theorem first_loop_keeps_positions
    (requests : list (list Byte.byte))
    (st : list (option (list json)) * list Response) :
  decode_loop_ 0 requests
    (replicate (length requests) None, replicate (length requests) bad_resp)
  = Ok st →
  length st.1 = length requests ∧ length st.2 = length requests ∧
  ∀ j data, requests !! j = Some data →
    match try_body_ data with
    | Ok (SetInstances l) =>
        st.1 !! j = Some (Some l) ∧ st.2 !! j = Some bad_resp
    | Ok (SetResponse r) => st.1 !! j = Some None ∧ st.2 !! j = Some r
    | Ok Skip => st.1 !! j = Some None ∧ st.2 !! j = Some bad_resp
    | Raise _ => False
    end.
Proof.
  intros Hloop.
  destruct (decode_loop_positions requests 0 _ st Hloop)
    as (L1 & L2 & _ & Hall); cbn [fst snd]; rewrite ?length_replicate; [lia..|].
  cbn [fst snd] in L1, L2. rewrite length_replicate in L1.
  rewrite length_replicate in L2.
  split_and!; [done..|]. intros j data Hj. specialize (Hall j data Hj).
  cbn [fst snd] in Hall. pose proof (lookup_lt_Some _ _ _ Hj) as Hlt.
  rewrite !lookup_replicate_2 in Hall by lia.
  by destruct (try_body_ data) as [[l|r|]|].
Qed.

Lemma mapM_res_length {A B : Type} (f : A → res B) (l : list A) (k : list B) :
  mapM f l = Ok k → length k = length l.
Proof.
  revert k. induction l as [|x l IH]; intros k; cbn [mapM].
  - by intros [= <-].
  - destruct (f x) as [y|]; [|done]. cbn [mbind res_bind].
    destruct (mapM f l) as [k'|]; [|done]. cbn [mbind res_bind].
    intros [= <-]. cbn. f_equal. by apply IH.
Qed.

Lemma mapM_res_lookup {A B : Type} (f : A → res B) (l : list A) (k : list B) :
  mapM f l = Ok k → ∀ j x, l !! j = Some x → ∃ y, k !! j = Some y ∧ f x = Ok y.
Proof.
  revert k. induction l as [|x0 l IH]; intros k; cbn [mapM].
  - intros _ j x Hj. by rewrite lookup_nil in Hj.
  - destruct (f x0) as [y0|] eqn:Hx0; [|done]. cbn [mbind res_bind].
    destruct (mapM f l) as [k'|]; [|done]. cbn [mbind res_bind].
    intros [= <-] [|j] x Hj; cbn in Hj.
    + injection Hj as <-. eauto.
    + exact (IH k' eq_refl j x Hj).
Qed.

(** The last loop writes, at the index of each result, the 200 response
    with the JSON text of that result. *)
Lemma respond_loop_writes results : ∀ i responses rs,
  respond_loop api_func_result_to_json i results responses = Ok rs →
  length rs = length responses ∧
  (∀ j, j < i → rs !! j = responses !! j) ∧
  (∀ j, i + length results ≤ j → rs !! j = responses !! j) ∧
  ∀ j result, results !! j = Some result →
    ∃ str, api_func_result_to_json result = Ok str ∧
           rs !! (i + j)
           = Some {| response := str; status := 200;
                     mimetype := Some "application/json" |}.
Proof.
  induction results as [|result results IH]; intros i responses rs;
    cbn [respond_loop].
  - intros [= <-]. split_and!; try done;
      intros j r Hj; by rewrite lookup_nil in Hj.
  - destruct (api_func_result_to_json result) as [str|] eqn:Hstr; [|done].
    cbn [mbind res_bind]. destruct (decide (i < length responses)); [|done].
    intros Hrs. destruct (IH _ _ _ Hrs) as (Hlen & Hlow & Hhigh & Hall).
    rewrite length_insert in Hlen. split_and!; [done| | |].
    + intros j Hj. rewrite Hlow by lia. apply list_lookup_insert_ne. lia.
    + intros j Hj. cbn [length] in Hj. rewrite Hhigh by lia.
      apply list_lookup_insert_ne. lia.
    + intros [|j] r Hj; cbn in Hj.
      * injection Hj as <-. exists str. split; [done|].
        rewrite Nat.add_0_r, Hlow by lia. by apply list_lookup_insert_eq.
      * replace (i + S j) with (S i + j) by lia. by apply Hall.
Qed.

Lemma respond_loop_bound results : ∀ i responses rs,
  respond_loop api_func_result_to_json i results responses = Ok rs →
  i ≤ length responses → i + length results ≤ length responses.
Proof.
  induction results as [|result results IH]; intros i responses rs;
    cbn [respond_loop length].
  - intros _ Hi. lia.
  - destruct (api_func_result_to_json result) as [str|]; [|done].
    cbn [mbind res_bind]. destruct (decide (i < length responses)); [|done].
    intros Hrs _. pose proof (IH _ _ _ Hrs) as Hb.
    rewrite length_insert in Hb. lia.
Qed.

(** What [handle_batch_request] went through when it returned. *)
Lemma handle_batch_request_Ok requests rs :
  handle_batch_request_ requests = Ok rs →
  ∃ st merged slices ml results,
    decode_loop_ 0 requests
      (replicate (length requests) None, replicate (length requests) bad_resp)
    = Ok st ∧
    concat_list st.1 = Ok (merged, slices) ∧
    mapM (getitem ml) slices = Ok results ∧
    respond_loop api_func_result_to_json 0 results st.2 = Ok rs.
Proof.
  unfold handle_batch_request. intros Hrs.
  destruct (decode_loop_ 0 requests _) as [st|] eqn:Hloop; [|done].
  cbn [mbind res_bind] in Hrs.
  destruct (concat_list st.1) as [[merged slices]|] eqn:Hcl; [|done].
  cbn [mbind res_bind fst snd] in Hrs.
  destruct (tf_constant merged) as [t|]; [|done]. cbn [mbind res_bind] in Hrs.
  destruct (func t) as [t'|]; [|done]. cbn [mbind res_bind] in Hrs.
  destruct (decode_tf_if_needed t') as [mr|]; [|done]. cbn [mbind res_bind] in Hrs.
  destruct mr as [| | | |ml|]; try done. cbn [mbind res_bind] in Hrs.
  destruct (mapM (getitem ml) slices) as [results|] eqn:Hmap; [|done].
  cbn [mbind res_bind] in Hrs. eauto 10.
Qed.

(** X16. Whenever [handle_batch_request] returns, it returns exactly one
    response per request; and [concat_list] had then given it no more
    slices than there are requests (with more, the last loop raises
    [IndexError]). *)
Theorem one_response_per_request
    (requests : list (list Byte.byte)) (rs : list Response) :
  handle_batch_request_ requests = Ok rs →
  length rs = length requests ∧
  ∃ st merged slices,
    decode_loop_ 0 requests
      (replicate (length requests) None, replicate (length requests) bad_resp)
    = Ok st ∧
    concat_list st.1 = Ok (merged, slices) ∧
    length slices ≤ length requests.
Proof.
  intros Hrs.
  destruct (handle_batch_request_Ok _ _ Hrs)
    as (st & merged & slices & ml & results & Hloop & Hcl & Hmap & Hresp).
  destruct (first_loop_keeps_positions requests st Hloop) as (L1 & L2 & _).
  pose proof (mapM_res_length _ _ _ Hmap) as Lres.
  destruct (respond_loop_writes _ _ _ _ Hresp) as (Lrs & _).
  pose proof (respond_loop_bound _ _ _ _ Hresp) as Hb.
  split; [congruence|]. exists st, merged, slices. split_and!; [done..|lia].
Qed.

(** X17. When [concat_list] gives one slice per request and
    [handle_batch_request] returns, every request is answered with status
    200 and mimetype [application/json]. This holds also for a request of
    the column format and for one with neither key: the 501 and Bad Input
    responses the first loop left for them are overwritten. *)
Theorem every_response_is_200
    (requests : list (list Byte.byte)) (rs : list Response) :
  (∀ l merged slices,
     concat_list l = Ok (merged, slices) → length slices = length l) →
  handle_batch_request_ requests = Ok rs →
  ∀ j, j < length requests →
    ∃ str, rs !! j = Some {| response := str; status := 200;
                             mimetype := Some "application/json" |}.
Proof.
  intros Hcontract Hrs j Hj.
  destruct (handle_batch_request_Ok _ _ Hrs)
    as (st & merged & slices & ml & results & Hloop & Hcl & Hmap & Hresp).
  destruct (first_loop_keeps_positions requests st Hloop) as (L1 & L2 & _).
  pose proof (mapM_res_length _ _ _ Hmap) as Lres.
  pose proof (Hcontract _ _ _ Hcl) as Lsl.
  destruct (respond_loop_writes _ _ _ _ Hresp) as (_ & _ & _ & Hall).
  assert (j < length results) as [result Hresult]%lookup_lt_is_Some by lia.
  destruct (Hall j result Hresult) as (str & _ & Hstr). eauto.
Qed.
End batch_loops.

(** Stand-ins for the collaborators, to run the handler on examples. *)
Module Toy.

(** The double quote character. *)
Definition dq : string :=
  String (Ascii.Ascii false true false false false true false false) "".

(** The text of a JSON object with one key whose value is [[1]]. *)
Definition doc (key : string) : string :=
  "{" +:+ dq +:+ key +:+ dq +:+ ":[1]}".

(** A [json.loads] that knows three documents. *)
Definition json_loads (s : string) : option json :=
  if decide (s = "{}") then Some (JObj [])
  else if decide (s = doc "instances")
       then Some (JObj [("instances", JArr [JNum 1])])
  else if decide (s = doc "inputs")
       then Some (JObj [("inputs", JArr [JNum 1])])
  else None.

Definition bytes_decode (bs : list Byte.byte) : option string :=
  Some (String.string_of_list_byte bs).

Definition bytes (s : string) : list Byte.byte := String.list_byte_of_string s.

Fixpoint slices (start : nat) (l : list (option (list json))) : list (nat * nat) :=
  match l with
  | [] => []
  | o :: l' =>
      (start, length (default [] o))
        :: slices (start + length (default [] o)) l'
  end.

(** A [concat_list] giving one [(start, length)] slice per entry. *)
Definition concat_list (l : list (option (list json)))
  : res (list json * list (nat * nat)) :=
  Ok (concat (default [] <$> l), slices 0 l).

Definition getitem (l : list json) (s : nat * nat) : res json :=
  Ok (JArr (take s.2 (drop s.1 l))).

Definition handle_batch_request (requests : list (list Byte.byte))
  : res (list Response) :=
  TensorflowTensorHandler.handle_batch_request (list json) (nat * nat)
    bytes_decode json_loads (fun j => Ok j) concat_list (fun l => Ok l)
    (fun t => Ok t) (fun t => Ok (JArr t)) getitem (fun _ => Ok "[1]")
    requests.

Definition decode_loop :=
  TensorflowTensorHandler.decode_loop bytes_decode json_loads (fun j => Ok j).

End Toy.

Lemma toy_slices_length l : ∀ start, length (Toy.slices start l) = length l.
Proof. induction l as [|o l IH]; intros start; cbn; [done|]. by rewrite IH. Qed.

Lemma first_loop_raises_attribute_error_witness :
  let requests := [Toy.bytes (Toy.doc "instances"); Toy.bytes "not json"] in
  let st := (replicate 2 None, replicate 2 bad_resp) in
  Toy.decode_loop 0 requests st = Raise AttributeError ∧
  AttributeError = AttributeError ∧
  ∃ data e0, data ∈ requests ∧
    try_body Toy.bytes_decode Toy.json_loads (fun j => Ok j) data = Raise e0.
Proof.
  intros requests st.
  assert (Toy.decode_loop 0 requests st = Raise AttributeError) as Hloop
    by (vm_compute; reflexivity).
  split; [exact Hloop|].
  exact (first_loop_raises_attribute_error Toy.bytes_decode Toy.json_loads
           (fun j => Ok j) requests 0 st AttributeError Hloop).
Defined.

Lemma first_loop_keeps_positions_witness :
  let requests := [Toy.bytes (Toy.doc "instances"); Toy.bytes (Toy.doc "inputs");
                   Toy.bytes "{}"] in
  ∃ st,
    Toy.decode_loop 0 requests
      (replicate (length requests) None, replicate (length requests) bad_resp)
    = Ok st ∧
    st.1 = [Some [JNum 1]; None; None] ∧
    (status <$> st.2) = [400; 501; 400]%Z ∧
    length st.1 = length requests.
Proof.
  intros requests. eexists. split; [vm_compute; reflexivity|].
  split; [reflexivity|]. split; [reflexivity|].
  refine (proj1 (first_loop_keeps_positions Toy.bytes_decode Toy.json_loads
                   (fun j => Ok j) requests _ _)).
  vm_compute; reflexivity.
Defined.

Lemma one_response_per_request_witness :
  let requests := [Toy.bytes (Toy.doc "instances"); Toy.bytes "{}"] in
  ∃ rs, Toy.handle_batch_request requests = Ok rs ∧
        length rs = length requests.
Proof.
  intros requests. eexists. split; [vm_compute; reflexivity|].
  refine (proj1 (one_response_per_request (list json) (nat * nat)
    Toy.bytes_decode Toy.json_loads (fun j => Ok j) Toy.concat_list
    (fun l => Ok l) (fun t => Ok t) (fun t => Ok (JArr t)) Toy.getitem
    (fun _ => Ok "[1]") requests _ _)).
  vm_compute; reflexivity.
Defined.

Lemma every_response_is_200_witness :
  let requests := [Toy.bytes (Toy.doc "instances"); Toy.bytes (Toy.doc "inputs");
                   Toy.bytes "{}"] in
  (∀ l merged slices,
     Toy.concat_list l = Ok (merged, slices) → length slices = length l) ∧
  ∃ rs, Toy.handle_batch_request requests = Ok rs ∧
        (status <$> rs) = [200; 200; 200]%Z ∧
        ∀ j, j < length requests →
          ∃ str, rs !! j = Some {| response := str; status := 200;
                                   mimetype := Some "application/json" |}.
Proof.
  intros requests.
  assert (∀ l merged slices,
     Toy.concat_list l = Ok (merged, slices) → length slices = length l) as Hc.
  { intros l merged slices [= _ <-]. apply toy_slices_length. }
  split; [exact Hc|]. eexists. split; [vm_compute; reflexivity|].
  split; [reflexivity|].
  refine (every_response_is_200 (list json) (nat * nat)
    Toy.bytes_decode Toy.json_loads (fun j => Ok j) Toy.concat_list
    (fun l => Ok l) (fun t => Ok t) (fun t => Ok (JArr t)) Toy.getitem
    (fun _ => Ok "[1]") requests _ Hc _).
  vm_compute; reflexivity.
Defined.

(** ** The single-request entry points *)

(** Exceptions of these entry points. *)
Definition NotImplementedError : exn := OtherError "NotImplementedError".
Definition UnboundLocalError : exn := OtherError "UnboundLocalError".
Definition KeyError : exn := OtherError "KeyError".
Definition BadInput : exn := OtherError "BadInput".
Definition BentoMLException : exn := OtherError "BentoMLException".

(** The parts of a flask request [handle_request] reads. *)
Record FlaskRequest := mkFlaskRequest {
  content_type : string;
  data : list Byte.byte
}.

(** An AWS Lambda event: a dict that may lack either key. *)
Record LambdaEvent := mkLambdaEvent {
  ev_headers : option (list (string * string));   (* [event["headers"]] *)
  ev_body : option string                         (* [event["body"]] *)
}.

(** The dict [handle_aws_lambda_event] returns. *)
Record LambdaResult := mkLambdaResult {
  statusCode : Z;
  body : string
}.

Section single_request.
Variable tensor : Type.
Variable bytes_decode : list Byte.byte → option string.
Variable json_loads : string → option json.
Variable decode_b64_if_needed : json → res json.
(** [tf.constant(instances)] *)
Variable tf_constant : json → res tensor.
Variable func : tensor → res tensor.
Variable decode_tf_if_needed : tensor → res json.
Variable api_func_result_to_json : json → res string.
(** [str(result)] *)
Variable py_str : json → string.

(** The first [if]/[elif] of [_handle_raw_str]: the value bound to
    [result], [None] when neither branch ran and [result] is unbound. *)
Definition raw_result (parsed_json : json) : res (option json) :=
  instances ← json_get "instances" parsed_json;
  if negb (is_None instances) then
    instances ← json_get "instances" parsed_json;
    instances ← decode_b64_if_needed instances;
    parsed_tensor ← tf_constant instances;
    result ← func parsed_tensor;
    result ← decode_tf_if_needed result;
    Ok (Some result)
  else
    inputs ← json_get "inputs" parsed_json;
    if truthy inputs then Raise NotImplementedError else Ok None.

(** [TensorflowTensorHandler._handle_raw_str]: reading an unbound local
    ([result], or [result_str] at the [return]) raises
    [UnboundLocalError]. *)
Definition _handle_raw_str (raw_str : string) (output_format : string)
  : res string :=
  parsed_json ← match json_loads raw_str with
                | Some j => Ok j
                | None => Raise JSONDecodeError
                end;
  result ← raw_result parsed_json;
  if decide (output_format = "json") then
    match result with
    | Some r => api_func_result_to_json r
    | None => Raise UnboundLocalError
    end
  else if decide (output_format = "str") then
    match result with
    | Some r => Ok (py_str r)
    | None => Raise UnboundLocalError
    end
  else Raise UnboundLocalError.

(** [TensorflowTensorHandler.handle_request] *)
Definition handle_request (request : FlaskRequest) : res Response :=
  if decide (content_type request = "application/json") then
    input_str ← match bytes_decode (data request) with
                | Some s => Ok s
                | None => Raise UnicodeDecodeError
                end;
    result_str ← _handle_raw_str input_str "json";
    Ok {| response := result_str; status := 200;
          mimetype := Some "application/json" |}
  else Raise BadInput.

(** [TensorflowTensorHandler.handle_aws_lambda_event]: a subscript on a
    dict raises [KeyError] for a missing key, [get] does not. *)
Definition handle_aws_lambda_event (event : LambdaEvent) : res LambdaResult :=
  headers ← match ev_headers event with
            | Some h => Ok h
            | None => Raise KeyError
            end;
  result ←
    (if decide (default "" (od_get "Content-Type" headers) = "application/json")
     then
       body ← match ev_body event with
              | Some b => Ok b
              | None => Raise KeyError
              end;
       _handle_raw_str body "json"
     else
       _ ← match od_get "Content-Type" headers with
           | Some ct => Ok ct
           | None => Raise KeyError
           end;
       Raise BentoMLException);
  Ok {| statusCode := 200; body := result |}.

(** X18. [_handle_raw_str] returns only for a JSON object whose
    [instances] are there and not null, and only for the output formats
    [json] and [str]: what it returns is then the text of the model's
    result on these instances. For any other output format, and for any
    document without instances, it raises. *)
Theorem raw_str_returns_only_for_instances
    (raw_str output_format result_str : string) :
  _handle_raw_str raw_str output_format = Ok result_str →
  ∃ fields instances decoded parsed_tensor t result,
    json_loads raw_str = Some (JObj fields) ∧
    od_get "instances" fields = Some instances ∧ instances ≠ JNull ∧
    decode_b64_if_needed instances = Ok decoded ∧
    tf_constant decoded = Ok parsed_tensor ∧
    func parsed_tensor = Ok t ∧
    decode_tf_if_needed t = Ok result ∧
    ((output_format = "json" ∧ api_func_result_to_json result = Ok result_str) ∨
     (output_format = "str" ∧ result_str = py_str result)).
Proof.
  unfold _handle_raw_str. destruct (json_loads raw_str) as [pj|]; [|done].
  cbn [mbind res_bind]. unfold raw_result.
  destruct pj as [| | | | |fields]; try done. cbn [json_get mbind res_bind].
  destruct (od_get "instances" fields) as [instances|] eqn:Hinst;
    cbn [default from_option id].
  2:{ cbn [is_None negb]. destruct (truthy _); cbn [mbind res_bind]; [done|].
      repeat case_decide; done. }
  destruct (is_None instances) eqn:Hnone; cbn [negb].
  { destruct (truthy _); cbn [mbind res_bind]; [done|].
    repeat case_decide; done. }
  cbn [mbind res_bind].
  destruct (decode_b64_if_needed instances) as [decoded|] eqn:Hdec; [|done].
  cbn [mbind res_bind].
  destruct (tf_constant decoded) as [pt|] eqn:Htf; [|done]. cbn [mbind res_bind].
  destruct (func pt) as [t|] eqn:Hfunc; [|done]. cbn [mbind res_bind].
  destruct (decode_tf_if_needed t) as [result|] eqn:Htfd; [|done].
  cbn [mbind res_bind]. intros Hres.
  exists fields, instances, decoded, pt, t, result.
  split_and!; try done.
  - intros ->. done.
  - destruct (decide (output_format = "json")); [by left|].
    destruct (decide (output_format = "str")); [|done].
    right. split; [done|]. by injection Hres.
Qed.

(** X19. A document without instances never reaches the model: with a
    column-format [inputs] it raises [NotImplementedError], and with
    neither key it raises [UnboundLocalError]; the same column-format body
    in a batch gets a 501 response from the first loop of
    [handle_batch_request] instead. *)
Theorem raw_str_without_instances
    (raw_str output_format : string) (fields : list (string * json))
    (request_data : list Byte.byte) :
  json_loads raw_str = Some (JObj fields) →
  default JNull (od_get "instances" fields) = JNull →
  bytes_decode request_data = Some raw_str →
  if truthy (default JNull (od_get "inputs" fields)) then
    _handle_raw_str raw_str output_format = Raise NotImplementedError ∧
    try_body bytes_decode json_loads decode_b64_if_needed request_data
    = Ok (SetResponse
            {| response := "Column format 'inputs' is not implemented";
               status := 501; mimetype := None |})
  else
    _handle_raw_str raw_str output_format = Raise UnboundLocalError ∧
    try_body bytes_decode json_loads decode_b64_if_needed request_data
    = Ok Skip.
Proof.
  intros Hload Hinst Hbytes. unfold _handle_raw_str, raw_result, try_body.
  rewrite Hbytes. cbn [mbind res_bind]. rewrite Hload.
  cbn [mbind res_bind json_get]. rewrite Hinst.
  cbn [is_None negb mbind res_bind].
  destruct (truthy (default JNull (od_get "inputs" fields)));
    cbn [mbind res_bind]; [done|].
  split; [|done]. repeat case_decide; done.
Qed.

(** X20. [handle_request] answers with status 200 or not at all: it
    returns only for content type [application/json] with a body that is
    UTF-8 and that [_handle_raw_str] accepts in format [json], and the
    response then carries that text with mimetype [application/json]. Any
    other content type raises [BadInput], whatever the body. *)
Theorem handle_request_outcomes (request : FlaskRequest) :
  (content_type request ≠ "application/json" →
   handle_request request = Raise BadInput) ∧
  ∀ r, handle_request request = Ok r →
    content_type request = "application/json" ∧
    status r = 200%Z ∧ mimetype r = Some "application/json" ∧
    ∃ input_str, bytes_decode (data request) = Some input_str ∧
                 _handle_raw_str input_str "json" = Ok (response r).
Proof.
  unfold handle_request. split.
  - intros Hct. by rewrite decide_False.
  - intros r. destruct (decide (content_type request = "application/json"));
      [|done].
    destruct (bytes_decode (data request)) as [input_str|]; [|done].
    cbn [mbind res_bind].
    destruct (_handle_raw_str input_str "json") as [str|] eqn:Hraw; [|done].
    cbn [mbind res_bind]. intros [= <-]. cbn [status mimetype response].
    split_and!; [done..|]. eauto.
Qed.

(** X21. [handle_aws_lambda_event] returns only for an event whose
    [Content-Type] header is exactly [application/json], with status code
    200 and the text [_handle_raw_str] gives for the body. An event whose
    headers lack [Content-Type] raises [KeyError] (the message of the
    exception meant for it subscripts the missing key); one with another
    content type raises [BentoMLException]. *)
Theorem lambda_event_outcomes (event : LambdaEvent)
    (headers : list (string * string)) :
  ev_headers event = Some headers →
  match od_get "Content-Type" headers with
  | None => handle_aws_lambda_event event = Raise KeyError
  | Some ct =>
      if decide (ct = "application/json") then
        match ev_body event with
        | None => handle_aws_lambda_event event = Raise KeyError
        | Some b =>
            handle_aws_lambda_event event
            = (result ← _handle_raw_str b "json";
               Ok {| statusCode := 200; body := result |})
        end
      else handle_aws_lambda_event event = Raise BentoMLException
  end.
Proof.
  intros Hh. unfold handle_aws_lambda_event. rewrite Hh. cbn [mbind res_bind].
  destruct (od_get "Content-Type" headers) as [ct|];
    cbn [default from_option id].
  - destruct (decide (ct = "application/json")); cbn [mbind res_bind]; [|done].
    destruct (ev_body event); done.
  - rewrite decide_False by done. done.
Qed.
End single_request.

Lemma raw_str_returns_only_for_instances_witness :
  ∃ result_str,
    _handle_raw_str json Toy.json_loads (fun j => Ok j) (fun j => Ok j)
      (fun t => Ok t) (fun t => Ok t) (fun _ => Ok "[1]") (fun _ => "[1]")
      (Toy.doc "instances") "json" = Ok result_str ∧
    ∃ fields instances decoded parsed_tensor t result,
      Toy.json_loads (Toy.doc "instances") = Some (JObj fields) ∧
      od_get "instances" fields = Some instances ∧ instances ≠ JNull ∧
      (fun j => Ok j) instances = Ok decoded ∧
      (fun j => Ok j) decoded = Ok parsed_tensor ∧
      (fun t : json => Ok t) parsed_tensor = Ok t ∧
      (fun t : json => Ok t) t = Ok result ∧
      (("json" = "json" ∧ (fun _ : json => Ok "[1]") result = Ok result_str) ∨
       ("json" = "str" ∧ result_str = (fun _ : json => "[1]") result)).
Proof.
  eexists. split; [vm_compute; reflexivity|].
  refine (raw_str_returns_only_for_instances json Toy.json_loads
            (fun j => Ok j) (fun j => Ok j) (fun t => Ok t) (fun t => Ok t)
            (fun _ => Ok "[1]") (fun _ => "[1]")
            (Toy.doc "instances") "json" _ _).
  vm_compute; reflexivity.
Defined.

Lemma raw_str_without_instances_witness :
  Toy.json_loads (Toy.doc "inputs") = Some (JObj [("inputs", JArr [JNum 1])]) ∧
  default JNull (od_get "instances" [("inputs", JArr [JNum 1])]) = JNull ∧
  Toy.bytes_decode (Toy.bytes (Toy.doc "inputs")) = Some (Toy.doc "inputs") ∧
  _handle_raw_str json Toy.json_loads (fun j => Ok j) (fun j => Ok j)
    (fun t => Ok t) (fun t => Ok t) (fun _ => Ok "[1]") (fun _ => "[1]")
    (Toy.doc "inputs") "json" = Raise NotImplementedError.
Proof.
  assert (Toy.json_loads (Toy.doc "inputs")
          = Some (JObj [("inputs", JArr [JNum 1])])) as H1
    by (vm_compute; reflexivity).
  assert (default JNull (od_get "instances" [("inputs", JArr [JNum 1])]) = JNull)
    as H2 by (vm_compute; reflexivity).
  assert (Toy.bytes_decode (Toy.bytes (Toy.doc "inputs")) = Some (Toy.doc "inputs"))
    as H3 by (vm_compute; reflexivity).
  split_and!; [exact H1|exact H2|exact H3|].
  exact (proj1 (raw_str_without_instances json Toy.bytes_decode Toy.json_loads
                  (fun j => Ok j) (fun j => Ok j) (fun t => Ok t) (fun t => Ok t)
                  (fun _ => Ok "[1]") (fun _ => "[1]")
                  (Toy.doc "inputs") "json" [("inputs", JArr [JNum 1])]
                  (Toy.bytes (Toy.doc "inputs")) H1 H2 H3)).
Defined.

Lemma lambda_event_outcomes_witness :
  let event := {| ev_headers := Some [("Accept", "application/json")];
                  ev_body := Some (Toy.doc "instances") |} in
  ev_headers event = Some [("Accept", "application/json")] ∧
  handle_aws_lambda_event json Toy.json_loads (fun j => Ok j) (fun j => Ok j)
    (fun t => Ok t) (fun t => Ok t) (fun _ => Ok "[1]") (fun _ => "[1]") event
  = Raise KeyError.
Proof.
  intros event. split; [reflexivity|].
  exact (lambda_event_outcomes json Toy.json_loads (fun j => Ok j)
           (fun j => Ok j) (fun t => Ok t) (fun t => Ok t) (fun _ => Ok "[1]")
           (fun _ => "[1]") event [("Accept", "application/json")] eq_refl).
Defined.

(** * Callers and their tokens *)

Section Tokens.
Context {I O : Type}.
Implicit Types (w : World I O) (P : Parade I O) (p c : nat) (cl : Caller O).

(** The token of a caller is a key of the inputs of the parade it holds. *)
Definition caller_admitted (w : World I O) (cl : Caller O) : Prop :=
  ∃ P, heap w !! c_parade cl = Some P ∧ c_id cl ∈ od_keys (batch_input P).

(** [w'] has every parade of [w], with at least the same tokens. *)
Definition keeps_tokens (w w' : World I O) : Prop :=
  ∀ p P k, heap w !! p = Some P → k ∈ od_keys (batch_input P) →
           ∃ P', heap w' !! p = Some P' ∧ k ∈ od_keys (batch_input P').

Lemma keeps_tokens_insert w w' q Q Q' :
  heap w !! q = Some Q → heap w' = <[q := Q']> (heap w) →
  (∀ k, k ∈ od_keys (batch_input Q) → k ∈ od_keys (batch_input Q')) →
  keeps_tokens w w'.
Proof.
  intros HQ Hh HQ' p P k HP Hk. rewrite Hh.
  destruct (decide (q = p)) as [->|Hne].
  - rewrite list_lookup_insert_eq by by eapply lookup_lt_Some.
    simplify_eq. eauto.
  - rewrite list_lookup_insert_ne by done. eauto.
Qed.

Lemma admitted_exec ev w w' :
  Forall (caller_admitted w) (callers w) →
  exec ev w = Some w' →
  Forall (caller_admitted w') (callers w').
Proof.
  intros HA Hex.
  assert (∀ w1, keeps_tokens w w1 → Forall (caller_admitted w1) (callers w))
    as Hmono.
  { intros w1 Hk. eapply Forall_impl; [exact HA|].
    intros cl (P & HP & Hin). destruct (Hk _ _ _ HP Hin) as (P' & ? & ?).
    by exists P'. }
  destruct ev as [id_ x|q|q outs|q e|c]; cbn [exec] in Hex.
  - unfold _func_enter in Hex. destruct (get_parade w) as [q w1] eqn:Hg.
    destruct (get_parade_open w) as (Q & HQ & HsQ & _). rewrite Hg in HQ.
    cbn [fst snd] in HQ. unfold _func_admit in Hex. rewrite HQ in Hex.
    cbn [mbind option_bind] in Hex. rewrite feed_open in Hex by done.
    injection Hex as <-. cbn [callers].
    assert (callers w1 = callers w ∧ keeps_tokens w w1) as [Hc1 Hk1].
    { destruct (get_parade_cases w) as [(q' & _ & Hg')|[_ Hg']];
        rewrite Hg' in Hg; injection Hg as <- <-; (split; [done|]).
      - intros p P k HP Hk. eauto.
      - intros p P k HP Hk. exists P. split; [|done]. cbn [heap].
        by apply lookup_app_l_Some. }
    apply Forall_app. split.
    + rewrite Hc1. apply Hmono. intros p P k HP Hk.
      destruct (Hk1 _ _ _ HP Hk) as (P1 & HP1 & Hk1'). cbn [heap].
      destruct (decide (q = p)) as [->|Hne].
      * rewrite list_lookup_insert_eq by by eapply lookup_lt_Some.
        eexists. split; [done|]. cbn [set_batch_input batch_input].
        simplify_eq. by apply od_set_keys_incl.
      * rewrite list_lookup_insert_ne by done. eauto.
    + apply Forall_singleton. unfold caller_admitted. cbn [c_parade c_id heap].
      rewrite list_lookup_insert_eq by by eapply lookup_lt_Some.
      eexists. split; [done|]. cbn [set_batch_input batch_input].
      apply od_set_keys_new.
  - unfold window_elapsed in Hex. destruct (windows w !! q) as [pc|]; [|done].
    destruct (heap w !! q) as [Q|] eqn:HQ; [|done]. cbn [mbind option_bind] in Hex.
    destruct pc; try done. injection Hex as <-. cbn [callers].
    apply Hmono. by eapply keeps_tokens_insert.
  - unfold window_resume in Hex. destruct (windows w !! q) as [pc|]; [|done].
    destruct (heap w !! q) as [Q|] eqn:HQ; [|done]. cbn [mbind option_bind] in Hex.
    destruct pc; try done. rewrite start_wait_resume_ok in Hex.
    injection Hex as <-.
    match goal with
    | |- Forall (caller_admitted ?W) _ =>
        assert (keeps_tokens w W) as Hk by (by eapply keeps_tokens_insert);
        pose proof (Hmono _ Hk) as HA'
    end.
    cbn [callers]. unfold notify_all. apply Forall_fmap.
    eapply Forall_impl; [exact HA'|].
    intros cl Hcl. unfold compose. destruct (c_pc cl); [|done..].
    by destruct (decide (c_parade cl = q)).
  - unfold window_resume in Hex. destruct (windows w !! q) as [pc|]; [|done].
    destruct (heap w !! q) as [Q|] eqn:HQ; [|done]. cbn [mbind option_bind] in Hex.
    destruct pc; try done. rewrite start_wait_resume_raise in Hex.
    injection Hex as <-. cbn [callers].
    apply Hmono. by eapply keeps_tokens_insert.
  - unfold _func_resume in Hex. destruct (callers w !! c) as [cl|] eqn:Hc; [|done].
    cbn [mbind option_bind] in Hex. destruct (c_pc cl); try done.
    destruct (heap w !! c_parade cl) as [Q|]; [|done]. injection Hex as <-.
    cbn [callers]. apply Forall_insert; [exact HA|].
    exact (Forall_lookup_1 _ _ _ _ HA Hc).
Qed.

Lemma admitted_run evs w w' :
  Forall (caller_admitted w) (callers w) →
  run evs w = Some w' →
  Forall (caller_admitted w') (callers w').
Proof.
  revert w. induction evs as [|ev evs IH]; intros w HA; cbn [run].
  - by intros [= <-].
  - destruct (exec ev w) as [w1|] eqn:Hex; [|done]. cbn [mbind option_bind].
    eauto using admitted_exec.
Qed.

(** X22. In every state the loop can reach, each caller task holds an
    existing parade, and its token is a key of that parade's input
    mapping: no admission is ever lost or moved to another parade. *)
Theorem caller_token_is_admitted (evs : list (event I O)) w c cl :
  run evs World_init = Some w → callers w !! c = Some cl →
  ∃ P, heap w !! c_parade cl = Some P ∧ c_id cl ∈ od_keys (batch_input P).
Proof.
  intros Hrun Hc.
  assert (Forall (caller_admitted w) (callers w)) as HA.
  { eapply admitted_run; [|exact Hrun]. apply Forall_nil_2. }
  exact (Forall_lookup_1 _ _ _ _ HA Hc).
Qed.

Lemma od_get_is_Some {V : Type} (k : string) (d : list (string * V)) :
  k ∈ od_keys d → is_Some (od_get k d).
Proof.
  unfold od_keys. induction d as [|[k' v'] d IH]; simpl.
  - intros Hk. by apply elem_of_nil in Hk.
  - intros Hk. destruct (decide (k' = k)); [eauto|].
    apply elem_of_cons in Hk as [->|Hk]; [done|]. by apply IH.
Qed.

(** X23. When the outputs of a parade are as many as its inputs, every
    caller of that parade that has returned got an output, never [None]:
    this holds in every state the loop can reach, whatever the schedule
    and also when callers share a token. *)
Theorem full_outputs_reach_every_caller
    (evs : list (event I O)) w c cl r P d :
  run evs World_init = Some w →
  callers w !! c = Some cl → c_pc cl = Returned r →
  heap w !! c_parade cl = Some P → batch_output P = Some d →
  length d = length (batch_input P) →
  ∃ o, r = Ok (Some o) ∧ od_get (c_id cl) d = Some o.
Proof.
  intros Hrun Hc Hpc HP Hd Hlen.
  assert (Delivered w) as HD.
  { eapply Delivered_run; [apply Inv_init| |exact Hrun]. apply Forall_nil_2. }
  pose proof (Forall_lookup_1 _ _ _ _ HD Hc) as Hcl.
  unfold caller_ok in Hcl. rewrite Hpc in Hcl.
  destruct Hcl as (P' & d' & HP' & Hd' & ->). simplify_eq.
  assert (Forall (caller_admitted w) (callers w)) as HA.
  { eapply admitted_run; [|exact Hrun]. apply Forall_nil_2. }
  destruct (Forall_lookup_1 _ _ _ _ HA Hc) as (P'' & HP'' & Hin). simplify_eq.
  assert (mappings_ok P) as [Hnd Hzip].
  { eapply (mappings_run evs World_init w); [apply Inv_init| |done..].
    intros q Q HQ. cbn [World_init heap] in HQ. by rewrite lookup_nil in HQ. }
  destruct (Hzip _ Hd) as [outputs ->].
  assert (od_keys (zip (od_keys (batch_input P)) outputs)
          = od_keys (batch_input P)) as Hkeys.
  { unfold od_keys. apply fst_zip. unfold od_keys in Hlen.
    rewrite length_zip, !length_fmap in Hlen. rewrite length_fmap. lia. }
  assert (c_id cl ∈ od_keys (zip (od_keys (batch_input P)) outputs)) as Hin'
    by (by rewrite Hkeys).
  destruct (od_get_is_Some _ _ Hin') as [o Ho]. exists o. split; [|exact Ho].
  f_equal. exact Ho.
Qed.
End Tokens.

Lemma caller_token_is_admitted_witness :
  ∃ (w : World nat nat) (cl : Caller nat),
    run [Submit "a" 1; WindowElapsed 0; Submit "b" 2; CallReturns 0 [10];
         Resume 0] World_init = Some w ∧
    callers w !! 1 = Some cl ∧
    ∃ P, heap w !! c_parade cl = Some P ∧ c_id cl ∈ od_keys (batch_input P).
Proof.
  eexists _, _. split; [vm_compute; reflexivity|].
  split; [vm_compute; reflexivity|].
  refine (caller_token_is_admitted
    [Submit "a" 1; WindowElapsed 0; Submit "b" 2; CallReturns 0 [10]; Resume 0]
    _ 1 _ _ _); vm_compute; reflexivity.
Defined.

Lemma full_outputs_reach_every_caller_witness :
  ∃ (w : World nat nat) (cl : Caller nat) (r : res (option nat))
    (P : Parade nat nat) (d : list (token * nat)),
    run [Submit "a" 1; Submit "b" 2; Submit "a" 3; WindowElapsed 0;
         CallReturns 0 [10; 20]; Resume 2] World_init = Some w ∧
    callers w !! 2 = Some cl ∧ c_pc cl = Returned r ∧
    heap w !! c_parade cl = Some P ∧ batch_output P = Some d ∧
    length d = length (batch_input P) ∧
    ∃ o, r = Ok (Some o) ∧ od_get (c_id cl) d = Some o.
Proof.
  eexists _, _, _, _, _. split; [vm_compute; reflexivity|].
  split; [vm_compute; reflexivity|]. split; [vm_compute; reflexivity|].
  split; [vm_compute; reflexivity|]. split; [vm_compute; reflexivity|].
  split; [vm_compute; reflexivity|].
  refine (full_outputs_reach_every_caller
    [Submit "a" 1; Submit "b" 2; Submit "a" 3; WindowElapsed 0;
     CallReturns 0 [10; 20]; Resume 2] _ 2 _ _ _ _ _ _ _ _ _ _);
    vm_compute; reflexivity.
Defined.
